(** * Statistics aggregation and flush engine of the status plugin

    A shallow embedding of [packages/plugin-status/server/stats.ts]:
    the in-memory counter accumulators ([Stat], [Stat.Recorded],
    [Stat.Numerical]), the flush check [updateStats], the recent-average
    function [average], the snapshot assembly [getStatusData] and the
    per-date snapshot cache [Statistics.patch].

    Conventions of the embedding.
    - A JavaScript object used as a record is an association list kept in
      the property order of the language (array-index keys first, in
      ascending order, then the other keys in insertion order); see
      [js_set].
    - The module-level [let]/[const] bindings of the source are the fields
      of one [State] record that every handler threads explicitly.
    - The SQL text the source builds with template literals is kept as a
      small syntax tree; [render_stmt] gives back the text character for
      character.
    - A thrown [TypeError] is the [None] of an [option]. *)

From Stdlib Require Import Ascii ZArith NArith QArith Qround.
From stdpp Require Import base option list strings gmap pretty.

Local Open Scope string_scope.
Local Open Scope list_scope.

(** ** JavaScript values and objects *)

Module JS.

(** A counter is a JavaScript number. Counters start at [0] and only ever
    grow by [1], so they are naturals; [NaN] is what [undefined + 1]
    yields when a slot that was never set up is incremented. *)
Inductive number : Type :=
  | Num (n : N)
  | NaN.

Definition number_add (a b : number) : number :=
  match a, b with
  | Num x, Num y => Num (x + y)
  | _, _ => NaN
  end.

(** [!value] is true for [0] and for [NaN]. *)
Definition truthy (v : number) : bool :=
  match v with
  | Num n => negb (n =? 0)%N
  | NaN => false
  end.

(** ['' + value] and [`${value}`]. *)
Definition number_to_string (v : number) : string :=
  match v with
  | Num n => pretty n
  | NaN => "NaN"
  end.

(** Property keys that are array indices (canonical decimal numerals
    below 2^32 - 1) are enumerated before all other keys. *)
Definition digit_of (c : ascii) : option N :=
  let n := N_of_ascii c in
  if ((48 <=? n) && (n <=? 57))%N then Some (n - 48)%N else None.

Fixpoint digits_value (acc : N) (s : string) : option N :=
  match s with
  | EmptyString => Some acc
  | String c s' =>
      match digit_of c with
      | Some d => digits_value (10 * acc + d)%N s'
      | None => None
      end
  end.

Definition array_index (s : string) : option N :=
  match s with
  | EmptyString => None
  | String c s' =>
      if bool_decide (c = "0"%char) && negb (bool_decide (s' = EmptyString))
      then None
      else match digits_value 0 s with
           | Some n => if (n <? 4294967295)%N then Some n else None
           | None => None
           end
  end.

Definition jsobj (V : Type) : Type := list (string * V).

Section Objects.
Context {V : Type}.

(** [o[k]]; [None] is [undefined]. *)
Fixpoint js_get (k : string) (o : jsobj V) : option V :=
  match o with
  | [] => None
  | (k', v) :: o' => if decide (k = k') then Some v else js_get k o'
  end.

(** Is a new key [k] enumerated before the existing key [k']? *)
Definition enumerated_before (k k' : string) : bool :=
  match array_index k, array_index k' with
  | Some i, Some j => (i <? j)%N
  | Some _, None => true
  | None, _ => false
  end.

Definition js_replace (k : string) (v : V) (o : jsobj V) : jsobj V :=
  map (λ kv : string * V, if decide (kv.1 = k) then (k, v) else kv) o.

Fixpoint js_insert (k : string) (v : V) (o : jsobj V) : jsobj V :=
  match o with
  | [] => [(k, v)]
  | kv :: o' =>
      if enumerated_before k kv.1 then (k, v) :: kv :: o'
      else kv :: js_insert k v o'
  end.

(** [o[k] = v]: an existing property keeps its place; a new array-index
    key is placed among the array-index keys in ascending order; any
    other new key goes last. *)
Definition js_set (k : string) (v : V) (o : jsobj V) : jsobj V :=
  match js_get k o with
  | Some _ => js_replace k v o
  | None => js_insert k v o
  end.

(** [delete o[k]]. *)
Definition js_delete (k : string) (o : jsobj V) : jsobj V :=
  filter (λ kv, kv.1 ≠ k) o.

(** [Object.keys(o)], also the order of [for (const k in o)]. *)
Definition js_keys (o : jsobj V) : list string := o.*1.

(** [Object.values(o)]. *)
Definition js_values (o : jsobj V) : list V := o.*2.

(** An association list is an object when no key occurs twice. *)
Definition js_wf (o : jsobj V) : Prop := NoDup (js_keys o).

#[global] Instance js_wf_dec (o : jsobj V) : Decision (js_wf o).
Proof. unfold js_wf. apply _. Defined.
End Objects.

End JS.
Export JS.

(** ** The statements sent to the persistence layer *)

Module Sql.

Definition dq : string := String (ascii_of_nat 34) EmptyString.
Definition nl : string := String (ascii_of_nat 10) EmptyString.

(** A value in the [VALUES (...)] list of an insert: what [config.create]
    returns. *)
Inductive value : Type :=
  | VNumber (v : number)
  | VJsonObject (entries : list (string * N)).

(** One [col = expr] of a [SET] / [ON DUPLICATE KEY UPDATE] list: what
    [config.update] returns. *)
Inductive assign : Type :=
  | AddAssign (col : string) (delta : number)
  | JsonMerge (col : string) (entries : list (string * N)).

Inductive stmt : Type :=
  | Update (table : string) (updates : list assign) (time : string)
  | InsertOnDuplicate (table : string) (cols : list string) (time : string)
      (values : list value) (updates : list assign)
  | ActivityUpdate (dayNumber : Z) (delta : N) (id : string).

(** [keys.map(key => `\`${key}\``).join(',')] *)
Definition joinKeys (keys : list string) : string :=
  String.concat "," (map (λ key, "`" +:+ key +:+ "`") keys).

(** [`JSON_OBJECT(${entries.map(([k, v]) => `'${k}', ${v}`).join(', ')})`]
    and ['' + value]. *)
Definition render_value (v : value) : string :=
  match v with
  | VNumber n => number_to_string n
  | VJsonObject entries =>
      "JSON_OBJECT(" +:+
      String.concat ", "
        (map (λ kv : string * N, "'" +:+ kv.1 +:+ "', " +:+ pretty kv.2) entries)
      +:+ ")"
  end.

Definition render_assign (a : assign) : string :=
  match a with
  | AddAssign key v =>
      "`" +:+ key +:+ "` = `" +:+ key +:+ "` + " +:+ number_to_string v
  | JsonMerge name entries =>
      "`" +:+ name +:+ "` = JSON_SET(`" +:+ name +:+ "`, " +:+
      String.concat ", "
        (map (λ kv : string * N,
                "'$." +:+ dq +:+ kv.1 +:+ dq +:+ "', IFNULL(`" +:+ name +:+
                "`->'$." +:+ dq +:+ kv.1 +:+ dq +:+ "', 0) + " +:+ pretty kv.2)
             entries)
      +:+ ")"
  end.

Definition render_stmt (s : stmt) : string :=
  match s with
  | Update table updates date =>
      "UPDATE `" +:+ table +:+ "` SET " +:+
      String.concat ", " (map render_assign updates) +:+
      " WHERE `time` = " +:+ dq +:+ date +:+ dq
  | InsertOnDuplicate table cols date values updates =>
      "INSERT INTO `" +:+ table +:+ "` (`time`, " +:+ joinKeys cols +:+ ") " +:+
      "VALUES (" +:+ dq +:+ date +:+ dq +:+ ", " +:+
      String.concat ", " (map render_value values) +:+ ") " +:+
      "ON DUPLICATE KEY UPDATE " +:+ String.concat ", " (map render_assign updates)
  | ActivityUpdate n delta id =>
      nl +:+ "        UPDATE `channel` SET" +:+
      nl +:+ "        `activity` = JSON_SET(`activity`, '$." +:+ dq +:+ pretty n +:+ dq +:+
      "', IFNULL(`activity`->'$." +:+ dq +:+ pretty n +:+ dq +:+ "', 0) + " +:+
      pretty delta +:+ ")" +:+
      nl +:+ "        WHERE `id` = " +:+ id +:+
      nl +:+ "      "
  end.

Definition is_insert (s : stmt) : bool :=
  match s with InsertOnDuplicate _ _ _ _ _ => true | _ => false end.

Definition is_update (s : stmt) : bool :=
  match s with Update _ _ _ => true | _ => false end.

(** The bucket key a statement addresses. *)
Definition stmt_time (s : stmt) : option string :=
  match s with
  | Update _ _ date | InsertOnDuplicate _ _ date _ _ => Some date
  | ActivityUpdate _ _ _ => None
  end.

Definition stmt_table (s : stmt) : string :=
  match s with
  | Update t _ _ | InsertOnDuplicate t _ _ _ _ => t
  | ActivityUpdate _ _ _ => "channel"
  end.

Definition stmt_updates (s : stmt) : list assign :=
  match s with
  | Update _ us _ | InsertOnDuplicate _ _ _ _ us => us
  | ActivityUpdate _ _ _ => []
  end.

End Sql.
Export Sql.

(** ** Counter accumulators: [abstract class Stat<K, V>] *)

(** [interface StatConfig<V>] *)
Module StatConfig.
Record t (V : Type) : Type := {
  setup : V;
  create : V → value;
  update : string → V → option assign;
}.
Arguments setup {V} _.
Arguments create {V} _ _.
Arguments update {V} _ _ _.
End StatConfig.

Module Stat.

(** The fields of a [Stat] instance: the constructor parameters [table],
    [fields], [config], the public [data] and the private [key], the
    bucket key the instance last inserted under ([null] at first). *)
Record t (V : Type) : Type := {
  table : string;
  fields : list string;
  config : StatConfig.t V;
  data : jsobj V;
  key : option string;
}.
Arguments table {V} _.
Arguments fields {V} _.
Arguments config {V} _.
Arguments data {V} _.
Arguments key {V} _.

Section Methods.
Context {V : Type}.

Definition with_data (s : t V) (d : jsobj V) : t V :=
  {| table := table s; fields := fields s; config := config s;
     data := d; key := key s |}.

Definition with_key (s : t V) (k : option string) : t V :=
  {| table := table s; fields := fields s; config := config s;
     data := data s; key := k |}.

(** [clear()]: every declared field is set to a fresh [config.setup()]. *)
Definition clear (s : t V) : t V :=
  with_data s
    (fold_left (λ d key, js_set key (StatConfig.setup (config s)) d)
       (fields s) (data s)).

(** The constructor: [data = {}], [key = null], then [this.clear()]. *)
Definition new (table : string) (fields : list string) (config : StatConfig.t V) : t V :=
  clear {| table := table; fields := fields; config := config;
           data := []; key := None |}.

(** The [updates] array built by the first loop of [update(date, sqls)]:
    [config.update(name, this.data[name])] for every [name in this.data],
    kept when it is not [undefined]. *)
Definition pending (s : t V) : list assign :=
  omap (λ nv : string * V, StatConfig.update (config s) nv.1 nv.2) (data s).

(** [update(date, sqls)]: returns the instance and the [sqls] array as
    they are after the call. *)
Definition update (date : string) (sqls : list stmt) (s : t V) : t V * list stmt :=
  let updates := pending s in
  match updates with
  | [] => (s, sqls)
  | _ :: _ =>
      if decide (Some date = key s) then
        (clear s, sqls ++ [Update (table s) updates date])
      else
        (clear (with_key s (Some date)),
         sqls ++ [InsertOnDuplicate (table s) (js_keys (data s)) date
                    (map (StatConfig.create (config s)) (js_values (data s)))
                    updates])
  end.
End Methods.

(** [type StatRecord = Record<string, number>] *)
Definition StatRecord : Type := jsobj N.

(** [namespace Stat { class Recorded }] *)
Module Recorded.
Definition config : StatConfig.t StatRecord := {|
  StatConfig.setup := [];
  StatConfig.create := λ value, VJsonObject value;
  StatConfig.update := λ name value,
    match value with
    | [] => None
    | _ :: _ => Some (JsonMerge name value)
    end;
|}.

Definition new (table : string) (fields : list string) : t StatRecord :=
  Stat.new table fields config.

(** [add(field, key)]: [this.data[field]] is [undefined] for a field
    that was never declared, and indexing it throws. *)
Definition add (field key : string) (s : t StatRecord) : option (t StatRecord) :=
  stat ← js_get field (data s);
  Some (with_data s
          (js_set field (js_set key (default 0%N (js_get key stat) + 1)%N stat)
             (data s))).
End Recorded.

(** [namespace Stat { class Numerical }] *)
Module Numerical.
Definition config : StatConfig.t number := {|
  StatConfig.setup := Num 0;
  StatConfig.create := λ value, VNumber value;
  StatConfig.update := λ key value,
    if truthy value then Some (AddAssign key value) else None;
|}.

Definition new (table : string) (fields : list string) : t number :=
  Stat.new table fields config.

(** [stat.data[field] += 1], the way the handlers count on a numerical
    accumulator. *)
Definition incr (field : string) (s : t number) : t number :=
  with_data s
    (js_set field
       (match js_get field (data s) with
        | Some v => number_add v (Num 1)
        | None => NaN
        end)
       (data s)).
End Numerical.

End Stat.

(** ** The module-level state and the flush check *)

Definition dailyFields : list string :=
  ["command"; "dialogue"; "botSend"; "botReceive"; "group"].
Definition hourlyFields : list string :=
  ["total"; "group"; "private"; "command"; "dialogue"].
Definition longtermFields : list string := ["message"].

(** What the source reads from a [Date] object. *)
Record Date : Type := {
  valueOf : Z;                  (* [+date], milliseconds *)
  getHours : N;
  toLocaleDateString : string;  (* [toLocaleDateString('zh-CN')] *)
}.

Record State : Type := {
  daily : Stat.t Stat.StatRecord;
  hourly : Stat.t number;
  longterm : Stat.t number;
  groups : jsobj N;
  lastUpdate : Date;
  updateHour : N;
  updateNumber : Z;
}.

(** The state right after the module is loaded at clock reading [now],
    [dateNumber] being what [Time.getDateNumber()] returns then. *)
Definition initial (now : Date) (dateNumber : Z) : State := {|
  daily := Stat.Recorded.new "stats_daily" dailyFields;
  hourly := Stat.Numerical.new "stats_hourly" hourlyFields;
  longterm := Stat.Numerical.new "stats_longterm" longtermFields;
  groups := [];
  lastUpdate := now;
  updateHour := getHours now;
  updateNumber := dateNumber;
|}.

Definition REFRESH_INTERVAL : Z := 60000.

(** [`${dateString}-${date.getHours()}:00`] *)
Definition hourString (date : Date) : string :=
  toLocaleDateString date +:+ "-" +:+ pretty (getHours date) +:+ ":00".

(** What one call of [updateStats] does towards the database: [NotDue]
    when the guard is false, otherwise the [sqls] array it built;
    [db.query(sqls)] is issued exactly when that array is not empty. *)
Inductive outcome : Type :=
  | NotDue
  | Flushed (sqls : list stmt).

Definition queried (o : outcome) : option (list stmt) :=
  match o with
  | Flushed (s :: sqls) => Some (s :: sqls)
  | _ => None
  end.

(** The loop [for (const id in groups) { sqls.push(...); delete groups[id] }]. *)
Definition flush_groups (updateNumber : Z) (groups : jsobj N) (sqls : list stmt)
  : jsobj N * list stmt :=
  fold_left
    (λ (acc : jsobj N * list stmt) (entry : string * N),
       (js_delete entry.1 acc.1,
        acc.2 ++ [ActivityUpdate updateNumber entry.2 entry.1]))
    groups (groups, sqls).

(** [updateStats(db, forced)], run when [new Date()] reads [date] and
    [Time.getDateNumber()] returns [dateNumber]. *)
Definition updateStats (date : Date) (dateNumber : Z) (forced : bool) (st : State)
  : State * outcome :=
  let dateHour := getHours date in
  if forced
     || bool_decide (valueOf date - valueOf (lastUpdate st) > REFRESH_INTERVAL)%Z
     || bool_decide (dateHour ≠ updateHour st)
  then
    let dateString := toLocaleDateString date in
    let hourString := hourString date in
    let sqls := [] in
    let '(hourly', sqls) := Stat.update hourString sqls (hourly st) in
    let '(daily', sqls) := Stat.update dateString sqls (daily st) in
    let '(longterm', sqls) := Stat.update dateString sqls (longterm st) in
    let '(groups', sqls) := flush_groups dateNumber (groups st) sqls in
    ({| daily := daily'; hourly := hourly'; longterm := longterm';
        groups := groups'; lastUpdate := date; updateHour := dateHour;
        updateNumber := dateNumber |},
     Flushed sqls)
  else (st, NotDue).

(** ** The event handlers registered by [Statistics.apply] *)

Inductive subtype : Type := SubGroup | SubPrivate.
Definition subtype_name (s : subtype) : string :=
  match s with SubGroup => "group" | SubPrivate => "private" end.

Inductive sendType : Type := SendCommand | SendDialogue.
Definition sendType_name (s : sendType) : string :=
  match s with SendCommand => "command" | SendDialogue => "dialogue" end.

Record Session : Type := {
  session_subtype : subtype;
  selfId : string;
  groupId : string;
}.

Definition set_daily (st : State) (d : Stat.t Stat.StatRecord) : State :=
  {| daily := d; hourly := hourly st; longterm := longterm st;
     groups := groups st; lastUpdate := lastUpdate st;
     updateHour := updateHour st; updateNumber := updateNumber st |}.

Definition set_hourly (st : State) (h : Stat.t number) : State :=
  {| daily := daily st; hourly := h; longterm := longterm st;
     groups := groups st; lastUpdate := lastUpdate st;
     updateHour := updateHour st; updateNumber := updateNumber st |}.

Definition set_longterm (st : State) (l : Stat.t number) : State :=
  {| daily := daily st; hourly := hourly st; longterm := l;
     groups := groups st; lastUpdate := lastUpdate st;
     updateHour := updateHour st; updateNumber := updateNumber st |}.

Definition set_groups (st : State) (g : jsobj N) : State :=
  {| daily := daily st; hourly := hourly st; longterm := longterm st;
     groups := g; lastUpdate := lastUpdate st;
     updateHour := updateHour st; updateNumber := updateNumber st |}.

(** [daily.add(field, key)] on the state. *)
Definition daily_add (field key : string) (st : State) : option State :=
  set_daily st <$> Stat.Recorded.add field key (daily st).

(** [updateSendStats(session)], the [before-send] handler. *)
Definition updateSendStats (session : Session) (date : Date) (dateNumber : Z)
    (st : State) : option (State * outcome) :=
  let st := set_hourly st (Stat.Numerical.incr "total" (hourly st)) in
  let st := set_hourly st
              (Stat.Numerical.incr (subtype_name (session_subtype session)) (hourly st)) in
  let st := set_longterm st (Stat.Numerical.incr "message" (longterm st)) in
  st ← daily_add "botSend" (selfId session) st;
  st ← match session_subtype session with
       | SubGroup =>
           st ← daily_add "group" (groupId session) st;
           Some (set_groups st
                   (js_set (groupId session)
                      (default 0%N (js_get (groupId session) (groups st)) + 1)%N
                      (groups st)))
       | SubPrivate => Some st
       end;
  Some (updateStats date dateNumber false st).

(** The [message] handler. *)
Definition on_message (session : Session) (st : State) : option State :=
  daily_add "botReceive" (selfId session) st.

(** The [before command] handler; [tested] is [command.parent?.name === 'test']
    and [name] the first dot-separated part of the command name. *)
Definition before_command (tested : bool) (name : string) (date : Date)
    (dateNumber : Z) (st : State) : option (State * outcome) :=
  if tested then Some (st, NotDue)
  else st ← daily_add "command" name st;
       Some (updateStats date dateNumber false st).

(** The [dialogue/before-send] handler; [id] is [dialogue.id] as a
    property key. *)
Definition dialogue_before_send (id : string) (date : Date) (dateNumber : Z)
    (st : State) : option (State * outcome) :=
  st ← daily_add "dialogue" id st;
  Some (updateStats date dateNumber false st).

(** The wrapper installed over [Session.prototype.send]; [arg0] is the
    truthiness of [args[0]]. *)
Definition Session_send (arg0 : bool) (type : option sendType) (st : State) : State :=
  match type with
  | Some ty =>
      if arg0 then set_hourly st (Stat.Numerical.incr (sendType_name ty) (hourly st))
      else st
  | None => st
  end.

(** [handleSigInt]: the forced flush bound to process termination. *)
Definition handleSigInt (date : Date) (dateNumber : Z) (st : State) : State * outcome :=
  updateStats date dateNumber true st.

(** ** Meaning of the emitted statements in the persistence layer

    The repository hands its statements to MySQL. The definitions of this
    module say what those statements do to the stored rows, for the few
    statement shapes the engine emits: [col + n] on a numeric column,
    [JSON_SET(col, path, IFNULL(col->path, 0) + n, ...)] on a JSON column,
    [UPDATE ... WHERE key = k] and [INSERT ... ON DUPLICATE KEY UPDATE]. *)

Module Db.

Inductive cell : Type :=
  | CNumber (n : N)
  | CJson (m : gmap string N).

(** [JSON_SET(col, '$.k1', IFNULL(col->'$.k1', 0) + v1, ...)]: every
    argument is evaluated against the stored value of the column, then the
    paths are set from left to right. *)
Definition json_merge (stored : gmap string N) (entries : list (string * N))
  : gmap string N :=
  foldl (λ m (kv : string * N), <[kv.1 := (default 0 (stored !! kv.1) + kv.2)%N]> m)
    stored entries.

(** One assignment applied to a row; [None] when the server rejects it. *)
Definition exec_assign (row : gmap string cell) (a : assign)
  : option (gmap string cell) :=
  match a with
  | AddAssign col (Num d) =>
      match row !! col with
      | Some (CNumber n) => Some (<[col := CNumber (n + d)]> row)
      | _ => None
      end
  | AddAssign _ NaN => None
  | JsonMerge col entries =>
      match row !! col with
      | Some (CJson m) => Some (<[col := CJson (json_merge m entries)]> row)
      | _ => None
      end
  end.

Definition exec_assigns (us : list assign) (row : gmap string cell)
  : option (gmap string cell) :=
  foldl (λ r a, r ← r; exec_assign r a) (Some row) us.

Definition cell_of_value (v : value) : option cell :=
  match v with
  | VNumber (Num n) => Some (CNumber n)
  | VNumber NaN => None
  | VJsonObject entries => Some (CJson (list_to_map entries))
  end.

(** The row [INSERT INTO t (cols) VALUES (values)] creates. *)
Fixpoint new_row (cols : list string) (values : list value)
  : option (gmap string cell) :=
  match cols, values with
  | [], [] => Some ∅
  | c :: cols, v :: values =>
      x ← cell_of_value v;
      row ← new_row cols values;
      Some (<[c := x]> row)
  | _, _ => None
  end.

(** A database: table name, then primary key ([time] or [id]), then column. *)
Definition exec_stmt (s : stmt) (db : gmap string (gmap string (gmap string cell)))
  : option (gmap string (gmap string (gmap string cell))) :=
  match s with
  | Update t us date =>
      let tbl := default ∅ (db !! t) in
      match tbl !! date with
      | None => Some db
      | Some row => row' ← exec_assigns us row; Some (<[t := <[date := row']> tbl]> db)
      end
  | InsertOnDuplicate t cols date values us =>
      let tbl := default ∅ (db !! t) in
      row' ← match tbl !! date with
             | None => new_row cols values
             | Some row => exec_assigns us row
             end;
      Some (<[t := <[date := row']> tbl]> db)
  | ActivityUpdate n delta id =>
      let tbl := default ∅ (db !! "channel") in
      match tbl !! id with
      | None => Some db
      | Some row =>
          row' ← exec_assign row (JsonMerge "activity" [(pretty n, delta)]);
          Some (<[ "channel" := <[id := row']> tbl]> db)
      end
  end.

(** [db.query(sqls)]: the statements run in order. *)
Definition query (sqls : list stmt) (db : gmap string (gmap string (gmap string cell)))
  : option (gmap string (gmap string (gmap string cell))) :=
  foldl (λ d s, d ← d; exec_stmt s d) (Some db) sqls.

End Db.

(** ** Recent averages *)

Definition RECENT_LENGTH : nat := 5.

(** A value read back from a stored record: the tables hold counts, so a
    number is an integer; anything else fails the [typeof] test. *)
Inductive jsval : Type :=
  | JNumber (n : Z)
  | JOther.

(** [+x.toFixed(1)]: the multiple of one tenth nearest to [x], the one of
    larger magnitude when two are equally near. *)
Definition toFixed1 (x : Q) : Q :=
  if Qle_bool 0 x then Qfloor (x * 10 + (1 # 2)) # 10
  else - (Qfloor (- x * 10 + (1 # 2)) # 10).

(** The body of the [forEach] callback of [average]: one record added
    into [result]. *)
Definition average_add (result : jsobj Z) (stat : jsobj jsval) : jsobj Z :=
  fold_left
    (λ (result : jsobj Z) (kv : string * jsval),
       match kv.2 with
       | JNumber n => js_set kv.1 (default 0 (js_get kv.1 result) + n)%Z result
       | JOther => result
       end)
    stat result.

(** [average(stats)] *)
Definition average (stats : list (jsobj jsval)) : jsobj Q :=
  let result := fold_left average_add (take RECENT_LENGTH stats) [] in
  map (λ kv : string * Z,
         (kv.1, toFixed1 (inject_Z kv.2 / inject_Z (Z.of_nat RECENT_LENGTH))))
      result.

(** ** Snapshot assembly: [getStatusData] *)

(** A row of [stats_daily]: [Record<DailyField, StatRecord>]. *)
Record DailyRow : Type := {
  d_command : jsobj jsval;
  d_dialogue : jsobj jsval;
  d_botSend : jsobj jsval;
  d_botReceive : jsobj jsval;
  d_group : jsobj jsval;
}.

(** A row of [stats_hourly]: [{ time: Date } & Record<HourlyField, number>]. *)
Record HourlyRow : Type := {
  h_time : Date;
  h_columns : jsobj jsval;
}.

(** The row as the object [average] enumerates: [time] holds a [Date],
    which is not a number. *)
Definition hourly_object (r : HourlyRow) : jsobj jsval :=
  ("time", JOther) :: h_columns r.

(** A row of [stats_longterm]. *)
Record LongtermRow : Type := {
  l_time : Date;
  l_message : jsval;
}.

(** [Pick<Channel, 'id' | 'name' | 'assignee'>] *)
Record ChannelRow : Type := {
  c_id : string;
  c_name : string;
  c_assignee : string;
}.

(** [type DataPack] *)
Record DataPack : Type := {
  historyDaily : list DailyRow;
  historyHourly : list HourlyRow;
  historyLongterm : list LongtermRow;
  channels : list ChannelRow;
}.

(** A bot as the assembly sees it. [getGroupList] is the outcome of
    [await bot.getGroupList()]: the listed [(groupId, groupName)] pairs,
    or [None] when the call fails. *)
Record Bot : Type := {
  platform : string;
  bot_selfId : string;
  getGroupList : option (list (string * string));
}.

(** The collaborators of [getStatusData]: the result of the four
    historical queries for a date, [app.bots[assignee]], [db.update('channel', _)]
    (does it succeed) and [getDialoguesById] (the [(id, original)] pairs
    found). *)
Record Env : Type := {
  query_result : string → option DataPack;
  bots_get : string → option Bot;
  db_update : list (string * string) → bool;
  getDialoguesById : list string → option (list (string * string));
}.

Record GroupData : Type := {
  g_name : string;
  g_platform : string;
  g_assignee : string;
  g_value : Q;
  g_last : option jsval;
}.

(** [value] is [None] when the source computes [undefined] or [NaN]. *)
Record QuestionData : Type := {
  q_name : string;
  q_value : option Q;
}.

Record Statistics : Type := {
  history : jsobj jsval;
  commands : jsobj Q;
  hours : list (jsobj Q);
  questions : list QuestionData;
  s_groups : list GroupData;
}.

Record CachedData : Type := {
  cd_historyDaily : list DailyRow;
  cd_extension : Statistics;
}.

(** The three things [getGroupInfo] mutates. *)
Record GroupAcc : Type := {
  groupSet : gset string;
  updateList : list (string * string);
  ext_groups : list GroupData;
}.

(** [historyDaily[0].group[id]]; the first row exists whenever
    [messageMap] has a key. *)
Definition last_of (historyDaily : list DailyRow) (id : string) : option jsval :=
  match historyDaily with
  | [] => None
  | d :: _ => js_get id (d_group d)
  end.

Section Assembly.
Variable env : Env.
Variable pack : DataPack.

Definition groupMap : jsobj ChannelRow :=
  fold_left (λ o g, js_set (c_id g) g o) (channels pack) [].

Definition messageMap : jsobj Q :=
  average (map d_group (historyDaily pack)).

(** One turn of the [for] loop of [getGroupInfo]. The result carries the
    accumulators as the turn leaves them and whether it threw:
    destructuring [groupMap[id]] throws when the channel has no row, and
    so does [app.bots[assignee].selfId] when the assignee is unknown. *)
Definition getGroupInfo_turn (bot : Bot) (acc : GroupAcc) (g : string * string)
  : GroupAcc * bool :=
  let '(groupId, name) := g in
  let id := platform bot +:+ ":" +:+ groupId in
  match js_get id messageMap with
  | None => (acc, false)
  | Some value =>
      if Qeq_bool value 0 || bool_decide (id ∈ groupSet acc) then (acc, false)
      else
        let acc := {| groupSet := {[id]} ∪ groupSet acc;
                      updateList := updateList acc;
                      ext_groups := ext_groups acc |} in
        match js_get id groupMap with
        | None => (acc, true)
        | Some row =>
            let acc :=
              if decide (name ≠ c_name row)
              then {| groupSet := groupSet acc;
                      updateList := updateList acc ++ [(id, name)];
                      ext_groups := ext_groups acc |}
              else acc in
            match bots_get env (c_assignee row) with
            | None => (acc, true)
            | Some assignee =>
                ({| groupSet := groupSet acc;
                    updateList := updateList acc;
                    ext_groups := ext_groups acc ++
                      [{| g_name := name; g_platform := platform bot;
                          g_assignee := bot_selfId assignee; g_value := value;
                          g_last := last_of (historyDaily pack) id |}] |},
                 false)
            end
        end
  end.

Fixpoint getGroupInfo_loop (bot : Bot) (acc : GroupAcc) (gs : list (string * string))
  : GroupAcc * bool :=
  match gs with
  | [] => (acc, false)
  | g :: gs =>
      let '(acc, threw) := getGroupInfo_turn bot acc g in
      if threw then (acc, true) else getGroupInfo_loop bot acc gs
  end.

(** [getGroupInfo(bot)]: the accumulators afterwards and whether the
    returned promise is rejected. *)
Definition getGroupInfo (bot : Bot) (acc : GroupAcc) : GroupAcc * bool :=
  match getGroupList bot with
  | None => (acc, true)
  | Some groups => getGroupInfo_loop bot acc groups
  end.

(** [getGroupInfo(bot).catch(noop)]: the rejection is dropped. *)
Definition getGroupInfo_caught (acc : GroupAcc) (bot : Bot) : GroupAcc :=
  (getGroupInfo bot acc).1.

(** [await Promise.all(bots.map(bot => getGroupInfo(bot).catch(noop)))].
    The loop of one bot has no [await] in it, so the loops run one after
    the other; [bots] lists the bots in the order their listings
    settle. *)
Definition collect_groups (bots : list Bot) : GroupAcc :=
  fold_left getGroupInfo_caught bots
    {| groupSet := ∅; updateList := []; ext_groups := [] |}.
End Assembly.

(** [key.split(':')[0]] *)
Fixpoint before_colon (s : string) : string :=
  match s with
  | EmptyString => EmptyString
  | String c s' => if bool_decide (c = ":"%char) then EmptyString
                   else String c (before_colon s')
  end.

(** [s.includes(needle)] *)
Fixpoint includes (needle s : string) : bool :=
  String.prefix needle s ||
  match s with
  | EmptyString => false
  | String _ s' => includes needle s'
  end.

Section Snapshot.
Variable env : Env.

(** The loop over [messageMap] after the bots were asked: channels with
    traffic that no bot listed. [None] when [app.bots[assignee].selfId]
    throws. *)
Definition unlisted_groups (pack : DataPack) (acc : GroupAcc)
  : option (list GroupData) :=
  foldl
    (λ (res : option (list GroupData)) (kv : string * Q),
       gs ← res;
       if bool_decide (kv.1 ∈ groupSet acc) then Some gs
       else match js_get kv.1 (groupMap pack) with
            | None => Some gs
            | Some row =>
                assignee ← bots_get env (c_assignee row);
                Some (gs ++
                  [{| g_name := if decide (c_name row = EmptyString) then kv.1
                                else c_name row;
                      g_platform := before_colon kv.1;
                      g_assignee := bot_selfId assignee;
                      g_value := kv.2;
                      g_last := last_of (historyDaily pack) kv.1 |}])
            end)
    (Some (ext_groups acc)) (messageMap pack).

(** [questionMap] after the loop over the dialogues found. *)
Definition question_add (dialogueMap : jsobj Q) (questionMap : jsobj QuestionData)
    (dialogue : string * string) : jsobj QuestionData :=
  let '(id, name) := dialogue in
  if includes "[CQ:" name || String.prefix "hook:" name then questionMap
  else match js_get name questionMap with
       | None =>
           js_set name {| q_name := name; q_value := js_get id dialogueMap |}
             questionMap
       | Some q =>
           js_set name
             {| q_name := q_name q;
                q_value := match q_value q, js_get id dialogueMap with
                           | Some a, Some b => Some (a + b)%Q
                           | _, _ => None
                           end |}
             questionMap
       end.

(** [getStatusData(app, date)]; [bots] is [app.bots] in the order the
    listings settle. [None] is a rejected promise. *)
Definition getStatusData (bots : list Bot) (date : string) : option CachedData :=
  pack ← query_result env date;
  let history :=
    fold_left (λ h stat, js_set (toLocaleDateString (l_time stat)) (l_message stat) h)
      (historyLongterm pack) [] in
  let commands := average (map d_command (historyDaily pack)) in
  let acc := collect_groups env pack bots in
  groups ← unlisted_groups pack acc;
  if db_update env (updateList acc) then
    let hours :=
      map (λ index : nat,
             average (map hourly_object
                        (filter (λ s, getHours (h_time s) = N.of_nat index)
                           (historyHourly pack))))
          (seq 0 24) in
    let dialogueMap := average (map d_dialogue (historyDaily pack)) in
    dialogues ← getDialoguesById env (js_keys dialogueMap);
    let questionMap := fold_left (question_add dialogueMap) dialogues [] in
    Some {| cd_historyDaily := historyDaily pack;
            cd_extension :=
              {| history := history; commands := commands; hours := hours;
                 questions := js_values questionMap; s_groups := groups |} |}
  else None.
End Snapshot.

(** ** The snapshot cache: [namespace Statistics] *)

Module StatisticsCache.

(** [cachedDate] and [cachedData] ([undefined] at first). A promise is
    named by the rank of the [getStatusData] call that returned it;
    [calls] lists the [date] argument of every such call so far; each call
    issues the historical queries once, before it first suspends. *)
Record t : Type := {
  cachedDate : option string;
  cachedData : option nat;
  calls : list string;
}.

Definition empty : t := {| cachedDate := None; cachedData := None; calls := [] |}.

(** [patch(profile)] up to its [await]: run when the clock reads the
    calendar date [date]; returns the cache and the promise awaited. *)
Definition patch_begin (date : string) (c : t) : t * option nat :=
  let c' :=
    if decide (Some date ≠ cachedDate c)
    then {| cachedDate := Some date;
            cachedData := Some (length (calls c));
            calls := calls c ++ [date] |}
    else c in
  (c', cachedData c').

(** The requests of a list of dates, served in order; the promises they
    await, in order. *)
Fixpoint serve (dates : list string) (c : t) : t * list (option nat) :=
  match dates with
  | [] => (c, [])
  | d :: ds =>
      let '(c1, p) := patch_begin d c in
      let '(c2, ps) := serve ds c1 in
      (c2, p :: ps)
  end.

(** Requests interleaved with the settling of promises. [patch] never
    looks at whether a promise has settled; [play] records it next to the
    promise each request awaits: [true] when the promise had settled
    before the request, [false] when it was still in flight. *)
Inductive request_event : Type :=
  | Request (date : string)
  | Settle (promise : nat).

Fixpoint play (evs : list request_event) (c : t) (settled : list nat)
  : t * list (option nat * bool) :=
  match evs with
  | [] => (c, [])
  | Request d :: evs =>
      let '(c1, p) := patch_begin d c in
      let '(c2, ps) := play evs c1 settled in
      (c2, (p, match p with
               | Some n => bool_decide (n ∈ settled)
               | None => false
               end) :: ps)
  | Settle n :: evs => play evs c (n :: settled)
  end.

End StatisticsCache.

(** ** Clients of the engine

    An accumulator is driven by any interleaving of increments and
    flushes; the engine by any sequence of framework events, each stamped
    with the clock reading at which it is handled. *)

Inductive op (I : Type) : Type :=
  | Incr (i : I)
  | Flush (date : string).
Arguments Incr {I} _.
Arguments Flush {I} _.

Fixpoint run {V I : Type} (incr : I → Stat.t V → option (Stat.t V))
    (ops : list (op I)) (s : Stat.t V) (sqls : list stmt)
  : option (Stat.t V * list stmt) :=
  match ops with
  | [] => Some (s, sqls)
  | Incr i :: ops => s' ← incr i s; run incr ops s' sqls
  | Flush date :: ops =>
      run incr ops (Stat.update date sqls s).1 (Stat.update date sqls s).2
  end.

Definition numerical_incr (field : string) (s : Stat.t number) : option (Stat.t number) :=
  Some (Stat.Numerical.incr field s).

Definition recorded_incr (i : string * string) (s : Stat.t Stat.StatRecord)
  : option (Stat.t Stat.StatRecord) :=
  Stat.Recorded.add i.1 i.2 s.

Inductive event : Type :=
  | EMessage (now : Date) (session : Session)
  | EBeforeSend (now : Date) (dateNumber : Z) (session : Session)
  | ECommand (now : Date) (dateNumber : Z) (tested : bool) (name : string)
  | EDialogue (now : Date) (dateNumber : Z) (id : string)
  | ESend (now : Date) (arg0 : bool) (type : option sendType)
  | ESigInt (now : Date) (dateNumber : Z).

Definition clock (e : event) : Date :=
  match e with
  | EMessage now _ | EBeforeSend now _ _ | ECommand now _ _ _
  | EDialogue now _ _ | ESend now _ _ | ESigInt now _ => now
  end.

Definition step (e : event) (st : State) : option (State * outcome) :=
  match e with
  | EMessage _ session => st' ← on_message session st; Some (st', NotDue)
  | EBeforeSend now n session => updateSendStats session now n st
  | ECommand now n tested name => before_command tested name now n st
  | EDialogue now n id => dialogue_before_send id now n st
  | ESend _ arg0 type => Some (Session_send arg0 type st, NotDue)
  | ESigInt now n => Some (handleSigInt now n st)
  end.

(** ** Observations on emitted statements *)

(** The number of inserts among [sqls] that address bucket [k]. *)
Definition inserts_for (k : string) (sqls : list stmt) : nat :=
  length (filter (λ s, is_insert s = true ∧ stmt_time s = Some k) sqls).

(** What an assignment adds to the numeric column [f]. *)
Definition assign_delta (f : string) (a : assign) : N :=
  match a with
  | AddAssign col (Num d) => if decide (col = f) then d else 0
  | _ => 0
  end.


Definition sum_N (l : list N) : N := foldr N.add 0%N l.

(** The total a list of statements adds to column [f] (to its nested key
    [k]). An insert counts through its [ON DUPLICATE KEY UPDATE] list,
    which carries the same amounts as its [VALUES]. *)
Definition flushed (f : string) (sqls : list stmt) : N :=
  sum_N (map (λ s, sum_N (map (assign_delta f) (stmt_updates s))) sqls).


(** The value an accumulator holds for a field (for a nested key); a slot
    that is not there holds nothing. *)
Definition held (f : string) (s : Stat.t number) : N :=
  match js_get f (Stat.data s) with
  | Some (Num n) => n
  | _ => 0
  end.


(** Every flush among [ops] uses the bucket key [d]. *)
Definition all_flushes_at {I : Type} (d : string) (ops : list (op I)) : Prop :=
  ∀ d', Flush d' ∈ ops → d' = d.

(** Nothing, or one insert for [d] followed only by merge-updates for [d]. *)
Definition one_insert_then_merges (d : string) (out : list stmt) : Prop :=
  match out with
  | [] => True
  | x :: rest =>
      is_insert x = true ∧ stmt_time x = Some d ∧
      Forall (λ s, is_update s = true ∧ stmt_time s = Some d) rest
  end.

(** The reading of the insert rule that counts every key an instance has
    ever flushed under: whatever the sequence of increments and flushes,
    no bucket key gets a second insert. *)
Definition insert_only_first_time : Prop :=
  ∀ (ops : list (op string)) (k : string) s sqls,
    run numerical_incr ops (Stat.Numerical.new "stats_hourly" hourlyFields) [] =
      Some (s, sqls) →
    (inserts_for k sqls ≤ 1)%nat.

(** How many times [ops] increments [i]. *)
Fixpoint increments {I : Type} `{EqDecision I} (i : I) (ops : list (op I)) : N :=
  match ops with
  | [] => 0
  | Incr j :: ops => (if decide (j = i) then 1 else 0) + increments i ops
  | Flush _ :: ops => increments i ops
  end%N.

(** The shape of a numerical accumulator that the constructor sets up and
    every operation keeps: declared fields hold numbers, and a slot outside
    the declared fields can only hold [NaN]. *)
Definition numerical_ok (s : Stat.t number) : Prop :=
  Stat.config s = Stat.Numerical.config ∧
  js_wf (Stat.data s) ∧
  (∀ f, f ∈ Stat.fields s → ∃ n, js_get f (Stat.data s) = Some (Num n)) ∧
  (∀ k v, js_get k (Stat.data s) = Some v → k ∈ Stat.fields s ∨ v = NaN).

(** The shape of a recorded accumulator: its slots are exactly the
    declared fields, each an object. *)
Definition recorded_ok (s : Stat.t Stat.StatRecord) : Prop :=
  Stat.config s = Stat.Recorded.config ∧
  js_wf (Stat.data s) ∧
  (∀ f, f ∈ Stat.fields s ↔ is_Some (js_get f (Stat.data s))) ∧
  (∀ f stat, js_get f (Stat.data s) = Some stat → js_wf stat).

(** The scenario of the specification: [help] counted three times and
    flushed, then once more and flushed under the same bucket. *)
Definition help_first : option (Stat.t Stat.StatRecord * list stmt) :=
  run recorded_incr
    [Incr ("command", "help"); Incr ("command", "help"); Incr ("command", "help");
     Flush "2024-01-01"]
    (Stat.Recorded.new "stats_daily" dailyFields) [].

Definition help_second : option (Stat.t Stat.StatRecord * list stmt) :=
  r ← help_first;
  run recorded_incr [Incr ("command", "help"); Flush "2024-01-01"] r.1 [].

(** The [command] column of the row of bucket [2024-01-01]. *)
Definition stored_command (db : option (gmap string (gmap string (gmap string Db.cell))))
  : option Db.cell :=
  db ← db; tbl ← db !! "stats_daily"; row ← tbl !! "2024-01-01"; row !! "command".

(** The three triggers of a flush. *)
Definition flush_due (date : Date) (forced : bool) (st : State) : Prop :=
  forced = true ∨
  (valueOf date - valueOf (lastUpdate st) > REFRESH_INTERVAL)%Z ∨
  getHours date ≠ updateHour st.

(** The state a flush at clock reading [date] leaves, and the statements
    it builds: the three accumulators flushed under the keys of [date], in
    the order hourly, daily, longterm, then one merge per ledger entry. *)
Definition flushed_state (date : Date) (dateNumber : Z) (st : State) : State := {|
  daily := (Stat.update (toLocaleDateString date) [] (daily st)).1;
  hourly := (Stat.update (hourString date) [] (hourly st)).1;
  longterm := (Stat.update (toLocaleDateString date) [] (longterm st)).1;
  groups := [];
  lastUpdate := date;
  updateHour := getHours date;
  updateNumber := dateNumber;
|}.

Definition flushed_sqls (date : Date) (dateNumber : Z) (st : State) : list stmt :=
  (Stat.update (hourString date) [] (hourly st)).2 ++
  (Stat.update (toLocaleDateString date) [] (daily st)).2 ++
  (Stat.update (toLocaleDateString date) [] (longterm st)).2 ++
  map (λ entry : string * N, ActivityUpdate dateNumber entry.2 entry.1) (groups st).


(** Clock readings and a session used in the examples. *)
Definition clock_reading (ms : Z) (hours : N) (date : string) : Date :=
  {| valueOf := ms; getHours := hours; toLocaleDateString := date |}.


(** The numeric value a record has for a key, zero when the key is
    missing or not a number; and whether it has one. *)
Definition num_at (k : string) (stat : jsobj jsval) : Z :=
  match js_get k stat with
  | Some (JNumber n) => n
  | _ => 0
  end.

Definition has_num (k : string) (stat : jsobj jsval) : bool :=
  match js_get k stat with
  | Some (JNumber _) => true
  | _ => false
  end.

Definition sum_at (k : string) (stats : list (jsobj jsval)) : Z :=
  foldr Z.add 0%Z (map (num_at k) stats).

(** A deployment used in the examples: one channel with traffic, a bot
    whose listing fails and a bot that lists the channel under a new
    name. *)
Definition sample_pack : DataPack := {|
  historyDaily :=
    [{| d_command := [("help", JNumber 3)]; d_dialogue := []; d_botSend := [];
        d_botReceive := []; d_group := [("onebot:4321", JNumber 10)] |}];
  historyHourly := [];
  historyLongterm := [];
  channels := [{| c_id := "onebot:4321"; c_name := "old"; c_assignee := "onebot:bot" |}];
|}.

Definition good_bot : Bot :=
  {| platform := "onebot"; bot_selfId := "bot";
     getGroupList := Some [("4321", "new")] |}.

Definition bad_bot : Bot :=
  {| platform := "kaiheila"; bot_selfId := "other"; getGroupList := None |}.

Definition sample_env : Env := {|
  query_result := λ _, Some sample_pack;
  bots_get := λ _, Some good_bot;
  db_update := λ _, true;
  getDialoguesById := λ _, Some [];
|}.

(** The dates at which a sequence of requests finds the cached date
    different from its own, [prev] being the cached date at first. *)
Fixpoint date_changes (prev : option string) (dates : list string) : list string :=
  match dates with
  | [] => []
  | d :: ds =>
      if decide (Some d = prev) then date_changes prev ds
      else d :: date_changes (Some d) ds
  end.

(** The dates of a calendar: once the date has changed, the earlier date
    does not come back. *)
Definition calendar (dates : list string) : Prop :=
  ∀ l1 d l2 d' l3, dates = l1 ++ d :: l2 ++ d' :: l3 → d' ≠ d → d ∉ l3.

(** ** The engine over a whole trace *)

(** The statements a call of [updateStats] built. *)
Definition sent (o : outcome) : list stmt :=
  match o with
  | Flushed sqls => sqls
  | NotDue => []
  end.

(** The events of [evs] handled in order from [st]: the state reached and
    every statement built on the way; [None] when a handler throws. *)
Fixpoint run_events (evs : list event) (st : State) : option (State * list stmt) :=
  match evs with
  | [] => Some (st, [])
  | e :: evs =>
      r ← step e st;
      r' ← run_events evs r.1;
      Some (r'.1, sent r.2 ++ r'.2)
  end.

(** The counting part of [updateSendStats], before its call of
    [updateStats]. *)
Definition send_counts (session : Session) (st : State) : option State :=
  let st := set_hourly st (Stat.Numerical.incr "total" (hourly st)) in
  let st := set_hourly st
              (Stat.Numerical.incr (subtype_name (session_subtype session)) (hourly st)) in
  let st := set_longterm st (Stat.Numerical.incr "message" (longterm st)) in
  st ← daily_add "botSend" (selfId session) st;
  match session_subtype session with
  | SubGroup =>
      st ← daily_add "group" (groupId session) st;
      Some (set_groups st
              (js_set (groupId session)
                 (default 0%N (js_get (groupId session) (groups st)) + 1)%N
                 (groups st)))
  | SubPrivate => Some st
  end.

(** What a handler counts before it checks for a flush, and the flush
    check it then makes, if any: clock reading, day number, forced. *)
Definition counted (e : event) (st : State) : option State :=
  match e with
  | EMessage _ session => on_message session st
  | EBeforeSend _ _ session => send_counts session st
  | ECommand _ _ tested name => if tested then Some st else daily_add "command" name st
  | EDialogue _ _ id => daily_add "dialogue" id st
  | ESend _ arg0 type => Some (Session_send arg0 type st)
  | ESigInt _ _ => Some st
  end.

Definition checks (e : event) : option (Date * Z * bool) :=
  match e with
  | EMessage _ _ | ESend _ _ _ => None
  | EBeforeSend now n _ | EDialogue now n _ => Some (now, n, false)
  | ECommand now n tested _ => if tested then None else Some (now, n, false)
  | ESigInt now n => Some (now, n, true)
  end.

(** The number of [before-send] events of a trace whose session
    satisfies [p]. *)
Definition before_sends (p : Session → bool) (evs : list event) : N :=
  sum_N (map (λ e, match e with
                   | EBeforeSend _ _ s => if p s then 1%N else 0%N
                   | _ => 0%N
                   end) evs).

Definition is_group (s : Session) : bool :=
  match session_subtype s with SubGroup => true | SubPrivate => false end.

(** What a list of statements adds to column [f] of table [t] (to its
    nested key [k]), and to the activity of channel [id]. *)
Definition flushed_in (t f : string) (sqls : list stmt) : N :=
  flushed f (filter (λ x, stmt_table x = t) sqls).




(** The shape of the engine state that loading the module sets up and
    every handler keeps: the three accumulators are the declared ones,
    their slots are exactly their declared fields in declared order, and
    the ledger has no key twice. *)
Definition state_ok (st : State) : Prop :=
  recorded_ok (daily st) ∧ Stat.table (daily st) = "stats_daily" ∧
  Stat.fields (daily st) = dailyFields ∧
  js_keys (Stat.data (daily st)) = dailyFields ∧
  numerical_ok (hourly st) ∧ Stat.table (hourly st) = "stats_hourly" ∧
  Stat.fields (hourly st) = hourlyFields ∧
  js_keys (Stat.data (hourly st)) = hourlyFields ∧
  numerical_ok (longterm st) ∧ Stat.table (longterm st) = "stats_longterm" ∧
  Stat.fields (longterm st) = longtermFields ∧
  js_keys (Stat.data (longterm st)) = longtermFields ∧
  js_wf (groups st).

(** How much one event counts towards field [f] of the hourly
    accumulator, towards the longterm [message] count, towards nested key
    [k] of field [f] of the daily accumulator, and towards the ledger
    entry of channel [id]. *)
Definition hourly_weight (f : string) (e : event) : N :=
  match e with
  | EBeforeSend _ _ s =>
      (if decide (f = "total") then 1 else 0) +
      (if decide (f = subtype_name (session_subtype s)) then 1 else 0)
  | ESend _ true (Some ty) => if decide (f = sendType_name ty) then 1 else 0
  | _ => 0
  end%N.

Definition longterm_weight (e : event) : N :=
  match e with
  | EBeforeSend _ _ _ => 1
  | _ => 0
  end%N.



(** ** What the store holds *)

(** The row of table [t] under the primary key [key]. *)
Definition stored_row (t key : string)
    (db : gmap string (gmap string (gmap string Db.cell)))
  : option (gmap string Db.cell) :=
  db !! t ≫= (.!! key).

(** The count stored in column [f] of that row; a row or a column that is
    not there holds nothing. *)
Definition stored_count (t key f : string)
    (db : gmap string (gmap string (gmap string Db.cell))) : N :=
  match stored_row t key db ≫= (.!! f) with
  | Some (Db.CNumber n) => n
  | _ => 0%N
  end.

(** The row of the bucket, when the table has one, holds a number in
    every declared column. *)
Definition numeric_row (fields : list string) (t key : string)
    (db : gmap string (gmap string (gmap string Db.cell))) : Prop :=
  ∀ row f, stored_row t key db = Some row → f ∈ fields →
           ∃ n, row !! f = Some (Db.CNumber n).



(** A numerical accumulator with no slot besides its declared fields. *)
Definition counts_only (s : Stat.t number) : Prop :=
  numerical_ok s ∧ ∀ k, k ∈ js_keys (Stat.data s) → k ∈ Stat.fields s.

(** A deployment with dialogues: two of them share a question and one
    is a hook. *)
Definition dialogue_pack : DataPack := {|
  historyDaily :=
    [{| d_command := [];
        d_dialogue := [("1", JNumber 5); ("2", JNumber 5); ("3", JNumber 10)];
        d_botSend := []; d_botReceive := []; d_group := [] |}];
  historyHourly := [];
  historyLongterm := [];
  channels := [];
|}.

Definition dialogue_env : Env := {|
  query_result := λ _, Some dialogue_pack;
  bots_get := λ _, None;
  db_update := λ _, true;
  getDialoguesById := λ _, Some [("1", "hello"); ("2", "hook:start"); ("3", "hello")];
|}.

(** The snapshot of the sample deployment. *)
Definition sample_snapshot : CachedData := {|
  cd_historyDaily := historyDaily sample_pack;
  cd_extension :=
    {| history := [];
       commands := [("help", 6 # 10)];
       hours := replicate 24 [];
       questions := [];
       s_groups := [{| g_name := "new"; g_platform := "onebot"; g_assignee := "bot";
                       g_value := 20 # 10; g_last := Some (JNumber 10) |}] |};
|}.

(** * Properties *)

(** ** Objects *)

Section ObjectFacts.
Context {V : Type}.
Implicit Types (o : jsobj V) (k : string) (v : V).

Lemma js_get_Some_elem k v o : js_get k o = Some v → (k, v) ∈ o.
Proof.
  induction o as [|[k' v'] o IH]; simpl; [done|].
  case_decide; intros ?; simplify_eq; [left | right; auto].
Qed.

Lemma js_get_None k o : js_get k o = None ↔ k ∉ js_keys o.
Proof.
  unfold js_keys. induction o as [|[k' v'] o IH]; simpl.
  - split; [intros _; apply not_elem_of_nil | done].
  - rewrite not_elem_of_cons. case_decide; [|tauto].
    split; [done | intros [? _]; contradiction].
Qed.

Lemma js_wf_elem k v o : js_wf o → (k, v) ∈ o ↔ js_get k o = Some v.
Proof.
  unfold js_wf, js_keys. induction o as [|[k' v'] o IH]; simpl; intros Hnd.
  - split; [by intros ?%elem_of_nil | done].
  - apply NoDup_cons in Hnd as [Hk Hnd]. rewrite elem_of_cons.
    case_decide as Hd; simplify_eq.
    + split; [|intros [= ->]; by left]. intros [[= ->]|Hin]; [done|].
      exfalso. apply Hk. apply list_elem_of_fmap. by exists (k', v).
    + rewrite <- (IH Hnd). split; [intros [[= ??]|?]; [congruence|done] | by right].
Qed.

Lemma js_keys_replace k v o : js_keys (js_replace k v o) = js_keys o.
Proof.
  unfold js_keys, js_replace. induction o as [|[k' v'] o IH]; [done|].
  rewrite !fmap_cons. f_equal; [|done]. simpl. by case_decide.
Qed.

Lemma js_keys_insert k v o : js_keys (js_insert k v o) ≡ₚ k :: js_keys o.
Proof.
  unfold js_keys. induction o as [|[k' v'] o IH]; simpl; [done|].
  destruct (enumerated_before k k'); simpl; [done|].
  rewrite IH. apply Permutation_swap.
Qed.

Lemma js_get_replace k v o k' :
  js_get k' (js_replace k v o) =
  if decide (k' = k) then (λ _, v) <$> js_get k o else js_get k' o.
Proof.
  unfold js_replace. induction o as [|[k1 v1] o IH]; simpl.
  - by case_decide.
  - repeat (case_decide; simplify_eq/=); try done; by rewrite IH; case_decide.
Qed.

Lemma js_get_insert k v o k' :
  js_get k o = None →
  js_get k' (js_insert k v o) = if decide (k' = k) then Some v else js_get k' o.
Proof.
  induction o as [|[k1 v1] o IH]; simpl; [done|].
  destruct (decide (k = k1)) as [->|Hne]; [done|]. intros Hn.
  destruct (enumerated_before k k1); simpl; [done|].
  rewrite (IH Hn). by repeat (case_decide; simplify_eq).
Qed.

Lemma js_get_set k v o k' :
  js_get k' (js_set k v o) = if decide (k' = k) then Some v else js_get k' o.
Proof.
  unfold js_set. destruct (js_get k o) eqn:Hk.
  - rewrite js_get_replace, Hk. by case_decide.
  - by apply js_get_insert.
Qed.

Lemma js_get_set_eq k v o : js_get k (js_set k v o) = Some v.
Proof. rewrite js_get_set. by case_decide. Qed.

Lemma js_get_set_ne k v o k' : k' ≠ k → js_get k' (js_set k v o) = js_get k' o.
Proof. intros. rewrite js_get_set. by case_decide. Qed.

Lemma js_wf_set k v o : js_wf o → js_wf (js_set k v o).
Proof.
  unfold js_wf, js_set. intros Hnd. destruct (js_get k o) eqn:Hk.
  - by rewrite js_keys_replace.
  - rewrite js_keys_insert. apply NoDup_cons. split; [|done].
    by apply js_get_None.
Qed.

Lemma js_wf_nil : js_wf ([] : jsobj V).
Proof. apply NoDup_nil_2. Qed.

End ObjectFacts.

(** ** Accumulators: [clear] and [update] *)

Section StatFacts.
Context {V : Type}.
Implicit Types (s : Stat.t V) (d : jsobj V) (k : string).

Lemma js_get_clear_fold (x : V) (fs : list string) d k :
  js_get k (fold_left (λ d key, js_set key x d) fs d) =
  if decide (k ∈ fs) then Some x else js_get k d.
Proof.
  revert d. induction fs as [|f fs IH]; intros d; simpl.
  - done.
  - rewrite IH, js_get_set.
    destruct (decide (k ∈ fs)) as [Hin|Hnin].
    + rewrite decide_True by (by right). done.
    + destruct (decide (k = f)) as [->|Hne].
      * rewrite decide_True by (by left). done.
      * rewrite decide_False; [done|].
        intros [?|?]%elem_of_cons; contradiction.
Qed.

Lemma js_wf_clear_fold (x : V) (fs : list string) d :
  js_wf d → js_wf (fold_left (λ d key, js_set key x d) fs d).
Proof.
  revert d. induction fs as [|f fs IH]; intros d Hwf; simpl; [done|].
  apply IH. by apply js_wf_set.
Qed.

Lemma js_get_clear s k :
  js_get k (Stat.data (Stat.clear s)) =
  if decide (k ∈ Stat.fields s) then Some (StatConfig.setup (Stat.config s))
  else js_get k (Stat.data s).
Proof. apply js_get_clear_fold. Qed.

Lemma js_wf_clear s : js_wf (Stat.data s) → js_wf (Stat.data (Stat.clear s)).
Proof. apply js_wf_clear_fold. Qed.

Lemma pending_nil s :
  Stat.pending s = [] ↔
  ∀ k v, (k, v) ∈ Stat.data s → StatConfig.update (Stat.config s) k v = None.
Proof.
  unfold Stat.pending. generalize (Stat.data s) as d.
  induction d as [|[k v] d IH]; simpl.
  - split; [by intros _ ?? ?%elem_of_nil | done].
  - destruct (StatConfig.update (Stat.config s) k v) eqn:Hu; simpl.
    + split; [done|]. intros H. specialize (H k v (list_elem_of_here _ _)).
      congruence.
    + rewrite IH. split.
      * intros H k' v' [[= -> ->]|Hin]%elem_of_cons; auto.
      * intros H k' v' Hin. apply H. by right.
Qed.

(** What one call of [update] does, in terms of the pending list. *)
Lemma update_cases date sqls s :
  (Stat.pending s = [] ∧ Stat.update date sqls s = (s, sqls)) ∨
  (Stat.pending s ≠ [] ∧ Stat.key s = Some date ∧
   Stat.update date sqls s =
     (Stat.clear s, sqls ++ [Update (Stat.table s) (Stat.pending s) date])) ∨
  (Stat.pending s ≠ [] ∧ Stat.key s ≠ Some date ∧
   Stat.update date sqls s =
     (Stat.clear (Stat.with_key s (Some date)),
      sqls ++ [InsertOnDuplicate (Stat.table s) (js_keys (Stat.data s)) date
                 (map (StatConfig.create (Stat.config s)) (js_values (Stat.data s)))
                 (Stat.pending s)])).
Proof.
  unfold Stat.update. destruct (Stat.pending s) as [|a us] eqn:Hp; [by left|].
  right. case_decide as Hk.
  - left. split; [done|]. split; [done|]. done.
  - right. split; [done|]. split; [congruence|]. done.
Qed.

(** [update] only ever appends to [sqls]. *)
Lemma update_appends date sqls s :
  (Stat.update date sqls s).2 = sqls ++ (Stat.update date [] s).2.
Proof.
  unfold Stat.update. destruct (Stat.pending s); simpl; [by rewrite app_nil_r|].
  by case_decide.
Qed.

Lemma update_state_indep date sqls s :
  (Stat.update date sqls s).1 = (Stat.update date [] s).1.
Proof.
  unfold Stat.update. destruct (Stat.pending s); simpl; [done|].
  by case_decide.
Qed.

(** An instance whose unset-or-undeclared slots are quiet has nothing
    pending once cleared. *)
Lemma pending_clear s :
  (∀ name, StatConfig.update (Stat.config s) name (StatConfig.setup (Stat.config s)) = None) →
  js_wf (Stat.data s) →
  (∀ k v, (k, v) ∈ Stat.data s →
     k ∈ Stat.fields s ∨ StatConfig.update (Stat.config s) k v = None) →
  Stat.pending (Stat.clear s) = [].
Proof.
  intros Hq Hwf Hinv. apply pending_nil. intros k v Hin.
  apply (js_wf_elem _ _ _ (js_wf_clear s Hwf)) in Hin.
  rewrite js_get_clear in Hin. simpl. case_decide as Hf.
  - injection Hin as <-. apply Hq.
  - apply (js_wf_elem _ _ _ Hwf) in Hin.
    destruct (Hinv k v Hin); [contradiction | done].
Qed.
End StatFacts.

(** ** Insert or merge *)

Section RunFacts.
Context {V I : Type} (incr : I → Stat.t V → option (Stat.t V)).
Hypothesis incr_key : ∀ i s s', incr i s = Some s' → Stat.key s' = Stat.key s.

Lemma run_appends ops s sqls :
  run incr ops s sqls =
  (λ r : Stat.t V * list stmt, (r.1, sqls ++ r.2)) <$> run incr ops s [].
Proof.
  revert s sqls. induction ops as [|[i|d] ops IH]; intros s sqls; simpl.
  - by rewrite app_nil_r.
  - destruct (incr i s) as [s'|]; simpl; [apply IH | done].
  - rewrite (IH _ (Stat.update d sqls s).2), (IH _ (Stat.update d [] s).2).
    rewrite update_state_indep, (update_appends d sqls).
    destruct (run incr ops (Stat.update d [] s).1 []) as [[s' out]|]; simpl; [|done].
    by rewrite app_assoc.
Qed.

Lemma key_clear (s : Stat.t V) : Stat.key (Stat.clear s) = Stat.key s.
Proof. done. Qed.

(** Once an instance holds key [d], flushes at [d] only merge. *)
Lemma run_same_key_merges d ops s s' out :
  all_flushes_at d ops → Stat.key s = Some d →
  run incr ops s [] = Some (s', out) →
  Forall (λ x, is_update x = true ∧ stmt_time x = Some d) out.
Proof.
  revert s s' out. induction ops as [|[i|d'] ops IH]; intros s s' out Hall Hk; simpl.
  - intros [= _ <-]. constructor.
  - destruct (incr i s) as [s1|] eqn:Hi; simpl; [|done].
    apply IH; [|by rewrite (incr_key _ _ _ Hi)].
    intros d1 Hin. apply Hall. by right.
  - assert (d' = d) as -> by (apply Hall; left).
    assert (all_flushes_at d ops) as Hall' by (intros d1 Hin; apply Hall; by right).
    rewrite run_appends.
    destruct (update_cases d [] s) as [[_ ->]|[(_ & _ & ->)|(_ & Hne & _)]];
      [| |congruence]; simpl.
    + destruct (run incr ops s []) as [[s2 out2]|] eqn:Hr; simpl; [|done].
      intros [= <- <-]. by eapply IH.
    + destruct (run incr ops (Stat.clear s) []) as [[s2 out2]|] eqn:Hr; simpl; [|done].
      intros [= <- <-]. constructor; [done|]. eapply IH; [done| |done].
      by rewrite key_clear.
Qed.

(** From an instance that holds another key (or none), flushes at [d]
    emit one insert, then only merge. *)
Lemma run_same_key_one_insert d ops s s' out :
  all_flushes_at d ops → Stat.key s ≠ Some d →
  run incr ops s [] = Some (s', out) →
  one_insert_then_merges d out.
Proof.
  revert s s' out. induction ops as [|[i|d'] ops IH]; intros s s' out Hall Hk; simpl.
  - by intros [= _ <-].
  - destruct (incr i s) as [s1|] eqn:Hi; simpl; [|done].
    apply IH; [|by rewrite (incr_key _ _ _ Hi)].
    intros d1 Hin. apply Hall. by right.
  - assert (d' = d) as -> by (apply Hall; left).
    assert (all_flushes_at d ops) as Hall' by (intros d1 Hin; apply Hall; by right).
    rewrite run_appends.
    destruct (update_cases d [] s) as [[_ ->]|[(_ & Heq & _)|(_ & _ & ->)]];
      [|congruence|]; simpl.
    + destruct (run incr ops s []) as [[s2 out2]|] eqn:Hr; simpl; [|done].
      intros [= <- <-]. by eapply IH.
    + destruct (run incr ops _ []) as [[s2 out2]|] eqn:Hr; simpl; [|done].
      intros [= <- <-]. split; [done|]. split; [done|].
      eapply run_same_key_merges; [done| |done]. done.
Qed.
End RunFacts.

Lemma numerical_incr_key i (s s' : Stat.t number) :
  numerical_incr i s = Some s' → Stat.key s' = Stat.key s.
Proof. by intros [= <-]. Qed.

Lemma recorded_incr_key i (s s' : Stat.t Stat.StatRecord) :
  recorded_incr i s = Some s' → Stat.key s' = Stat.key s.
Proof.
  unfold recorded_incr, Stat.Recorded.add.
  destruct (js_get i.1 (Stat.data s)); simpl; [|done]. by intros [= <-].
Qed.

(** C1 (as the code has it). A flush with nothing pending emits nothing
    and changes nothing. A flush with pending data emits exactly one
    statement for its bucket key, carrying the pending amounts: a
    merge-UPDATE when the key equals the key the instance last inserted
    under, an INSERT otherwise; the instance then holds that key and is
    cleared. Hence, when all the flushes of a new instance use one bucket
    key, whatever increments come in between, the statements emitted are
    one insert followed only by merge-updates: never two inserts. *)
Theorem flush_inserts_iff_key_differs :
  (∀ (V : Type) (s : Stat.t V) (date : string) (sqls : list stmt),
     (Stat.pending s = [] ∧ Stat.update date sqls s = (s, sqls)) ∨
     (Stat.pending s ≠ [] ∧
      ∃ x s', Stat.update date sqls s = (s', sqls ++ [x]) ∧
              Stat.key s' = Some date ∧
              Stat.data s' = Stat.data (Stat.clear s) ∧
              stmt_time x = Some date ∧
              stmt_updates x = Stat.pending s ∧
              (is_insert x = true ↔ Stat.key s ≠ Some date) ∧
              (is_update x = true ↔ Stat.key s = Some date))) ∧
  (∀ table fields (ops : list (op string)) d s out,
     all_flushes_at d ops →
     run numerical_incr ops (Stat.Numerical.new table fields) [] = Some (s, out) →
     one_insert_then_merges d out) ∧
  (∀ table fields (ops : list (op (string * string))) d s out,
     all_flushes_at d ops →
     run recorded_incr ops (Stat.Recorded.new table fields) [] = Some (s, out) →
     one_insert_then_merges d out).
Proof.
  split; [|split].
  - intros V s date sqls.
    destruct (update_cases date sqls s) as [[Hp Hu]|[(Hp & Hk & Hu)|(Hp & Hk & Hu)]].
    + by left.
    + right. split; [done|]. eexists _, _. split; [exact Hu|].
      repeat split; simpl; try done.
    + right. split; [done|]. eexists _, _. split; [exact Hu|].
      repeat split; simpl; try done.
  - intros table fields ops d s out Hall Hrun.
    eapply (run_same_key_one_insert numerical_incr numerical_incr_key);
      [exact Hall | | exact Hrun]. simpl. discriminate.
  - intros table fields ops d s out Hall Hrun.
    eapply (run_same_key_one_insert recorded_incr recorded_incr_key);
      [exact Hall | | exact Hrun]. simpl. discriminate.
Qed.

Lemma flush_inserts_iff_key_differs_witness :
  one_insert_then_merges "2024/1/1-10:00"
    [InsertOnDuplicate "stats_hourly" hourlyFields "2024/1/1-10:00"
       [VNumber (Num 1); VNumber (Num 0); VNumber (Num 0); VNumber (Num 0);
        VNumber (Num 0)]
       [AddAssign "total" (Num 1)];
     Update "stats_hourly" [AddAssign "total" (Num 2)] "2024/1/1-10:00"].
Proof.
  eapply (proj1 (proj2 flush_inserts_iff_key_differs) "stats_hourly" hourlyFields
            [Incr "total"; Flush "2024/1/1-10:00"; Flush "2024/1/1-10:00";
             Incr "total"; Incr "total"; Flush "2024/1/1-10:00"]).
  - intros d' Hin.
    repeat (apply elem_of_cons in Hin as [Heq|Hin]; [by simplify_eq|]).
    by apply elem_of_nil in Hin.
  - vm_compute. reflexivity.
Defined.

(** C1 (as stated) fails: the instance remembers only the key of its last
    insert, so returning to an earlier key inserts for it a second time. *)
Lemma insert_only_first_time_fails : ¬ insert_only_first_time.
Proof.
  intros H.
  specialize (H [Incr "total"; Flush "2024/1/1-10:00";
                 Incr "total"; Flush "2024/1/1-11:00";
                 Incr "total"; Flush "2024/1/1-10:00"] "2024/1/1-10:00").
  vm_compute in H. specialize (H _ _ eq_refl). vm_compute in H. lia.
Qed.

(** ** Every increment is flushed once *)

Lemma sum_N_app (l1 l2 : list N) : sum_N (l1 ++ l2) = (sum_N l1 + sum_N l2)%N.
Proof.
  unfold sum_N. induction l1 as [|x l1 IH]; simpl; [done|]. rewrite IH. lia.
Qed.

Lemma flushed_app f (a b : list stmt) :
  flushed f (a ++ b) = (flushed f a + flushed f b)%N.
Proof. unfold flushed. by rewrite map_app, sum_N_app. Qed.



Lemma fields_clear {V : Type} (s : Stat.t V) : Stat.fields (Stat.clear s) = Stat.fields s.
Proof. done. Qed.

Lemma fields_update {V : Type} (s : Stat.t V) date sqls :
  Stat.fields (Stat.update date sqls s).1 = Stat.fields s.
Proof.
  by destruct (update_cases date sqls s) as [[_ ->]|[(_ & _ & ->)|(_ & _ & ->)]].
Qed.

Section NumericalFacts.
Implicit Types (s : Stat.t number) (f : string).

Lemma numerical_ok_new table fields :
  numerical_ok (Stat.Numerical.new table fields).
Proof.
  unfold Stat.Numerical.new, Stat.new. split; [done|]. split; [|split].
  - apply js_wf_clear, js_wf_nil.
  - intros f Hf. exists 0%N. rewrite js_get_clear. simpl. by rewrite decide_True.
  - intros k v. rewrite js_get_clear. simpl. case_decide; [by left | done].
Qed.

Lemma numerical_ok_clear s : numerical_ok s → numerical_ok (Stat.clear s).
Proof.
  intros (Hc & Hwf & Hf & Ho). split; [done|]. split; [|split].
  - by apply js_wf_clear.
  - intros f Hin. exists 0%N. rewrite js_get_clear, Hc. simpl in *.
    by rewrite decide_True.
  - intros k v. rewrite js_get_clear. simpl. case_decide; [by left | apply Ho].
Qed.

Lemma numerical_ok_update s date sqls :
  numerical_ok s → numerical_ok (Stat.update date sqls s).1.
Proof.
  intros Hok.
  destruct (update_cases date sqls s) as [[_ ->]|[(_ & _ & ->)|(_ & _ & ->)]]; simpl.
  - done.
  - by apply numerical_ok_clear.
  - by apply (numerical_ok_clear (Stat.with_key s (Some date))).
Qed.

Lemma numerical_ok_incr s f : numerical_ok s → numerical_ok (Stat.Numerical.incr f s).
Proof.
  intros (Hc & Hwf & Hf & Ho). split; [done|]. split; [|split]; simpl.
  - by apply js_wf_set.
  - intros f' Hin. rewrite js_get_set. case_decide as Heq; [|by apply Hf].
    subst f'. destruct (Hf f Hin) as [n ->]. by exists (n + 1)%N.
  - intros k v. rewrite js_get_set. case_decide as Heq; [|apply Ho].
    subst k. intros [= <-]. destruct (js_get f (Stat.data s)) as [v|] eqn:Hg; [|by right].
    destruct (Ho f v Hg) as [?| ->]; [by left | by right].
Qed.

Lemma held_incr s f f' :
  numerical_ok s → f ∈ Stat.fields s →
  held f (Stat.Numerical.incr f' s) =
  (held f s + if decide (f' = f) then 1 else 0)%N.
Proof.
  intros (Hc & Hwf & Hf & Ho) Hin. unfold held. simpl.
  rewrite js_get_set. destruct (Hf f Hin) as [n Hn]. rewrite Hn.
  destruct (decide (f = f')) as [<-|Hne].
  - rewrite decide_True by done. rewrite Hn. done.
  - rewrite decide_False by congruence. lia.
Qed.

Lemma held_clear s f : numerical_ok s → f ∈ Stat.fields s → held f (Stat.clear s) = 0%N.
Proof.
  intros (Hc & _) Hin. unfold held. rewrite js_get_clear, decide_True by done.
  by rewrite Hc.
Qed.

Lemma pending_numerical_sum (d : jsobj number) f :
  js_wf d →
  sum_N (map (assign_delta f)
           (omap (λ nv : string * number,
                    StatConfig.update Stat.Numerical.config nv.1 nv.2) d)) =
  match js_get f d with Some (Num n) => n | _ => 0%N end.
Proof.
  unfold js_wf, js_keys. induction d as [|[k v] d IH]; [done|].
  rewrite fmap_cons, NoDup_cons. intros [Hk Hnd].
  specialize (IH Hnd). simpl in *.
  destruct (decide (f = k)) as [->|Hne].
  - assert (js_get k d = None) as Hnone by (by apply js_get_None).
    rewrite Hnone in IH.
    destruct v as [n|]; simpl; [|done].
    destruct (n =? 0)%N eqn:Hz; simpl; [apply N.eqb_eq in Hz; by subst|].
    rewrite decide_True by done.
    transitivity (n + 0)%N; [f_equal; exact IH | lia].
  - destruct v as [n|]; simpl; [|exact IH].
    destruct (n =? 0)%N; simpl; [exact IH|].
    rewrite decide_False by done. exact IH.
Qed.

Lemma held_pending s f :
  numerical_ok s → sum_N (map (assign_delta f) (Stat.pending s)) = held f s.
Proof.
  intros (Hc & Hwf & _). unfold Stat.pending, held. rewrite Hc.
  by apply pending_numerical_sum.
Qed.

Lemma pending_clear_numerical s : numerical_ok s → Stat.pending (Stat.clear s) = [].
Proof.
  intros (Hc & Hwf & Hf & Ho). apply pending_clear; [by rewrite Hc|done|].
  intros k v Hin. apply (js_wf_elem _ _ _ Hwf) in Hin.
  destruct (Ho k v Hin) as [?| ->]; [by left | right; by rewrite Hc].
Qed.

(** One flush moves what a declared field holds into the statement. *)
Lemma flushed_update s f date :
  numerical_ok s → f ∈ Stat.fields s →
  (flushed f (Stat.update date [] s).2 + held f (Stat.update date [] s).1)%N = held f s.
Proof.
  intros Hok Hin.
  destruct (update_cases date [] s) as [[_ ->]|[(_ & _ & ->)|(_ & _ & ->)]]; simpl.
  - done.
  - unfold flushed. simpl. rewrite held_pending, held_clear by done. lia.
  - unfold flushed. simpl. rewrite held_pending by done.
    rewrite (held_clear (Stat.with_key s (Some date))) by done. lia.
Qed.



End NumericalFacts.

Section RecordedFacts.
Implicit Types (s : Stat.t Stat.StatRecord) (f k : string).

Lemma recorded_ok_clear s : recorded_ok s → recorded_ok (Stat.clear s).
Proof.
  intros (Hc & Hwf & Hf & Hn). split; [done|]. split; [|split].
  - by apply js_wf_clear.
  - intros f. rewrite js_get_clear. simpl. case_decide as Hin.
    + split; [by eexists | done].
    + split; [done|]. intros Hs. by apply Hf in Hs.
  - intros f stat. rewrite js_get_clear, Hc. simpl. case_decide.
    + intros [= <-]. apply js_wf_nil.
    + apply Hn.
Qed.

Lemma recorded_ok_new table fields : recorded_ok (Stat.Recorded.new table fields).
Proof.
  unfold Stat.Recorded.new, Stat.new. split; [done|]. split; [|split].
  - apply js_wf_clear, js_wf_nil.
  - intros f. rewrite js_get_clear. simpl. case_decide as Hin.
    + split; [by eexists | done].
    + split; [done|]. by intros [? ?].
  - intros f stat. rewrite js_get_clear. simpl. case_decide; [|done].
    intros [= <-]. apply js_wf_nil.
Qed.

Lemma recorded_ok_update s date sqls :
  recorded_ok s → recorded_ok (Stat.update date sqls s).1.
Proof.
  intros Hok.
  destruct (update_cases date sqls s) as [[_ ->]|[(_ & _ & ->)|(_ & _ & ->)]]; simpl.
  - done.
  - by apply recorded_ok_clear.
  - by apply (recorded_ok_clear (Stat.with_key s (Some date))).
Qed.

Lemma recorded_ok_add s s' f k :
  recorded_ok s → Stat.Recorded.add f k s = Some s' →
  recorded_ok s' ∧ Stat.fields s' = Stat.fields s.
Proof.
  intros (Hc & Hwf & Hf & Hn). unfold Stat.Recorded.add.
  destruct (js_get f (Stat.data s)) as [stat|] eqn:Hg; simpl; [|done].
  intros [= <-]. split; [|done]. split; [done|]. split; [|split]; simpl.
  - by apply js_wf_set.
  - intros f'. rewrite js_get_set. case_decide as Heq; [|apply Hf].
    subst f'. split; [by eexists|]. intros _. apply Hf. by eexists.
  - intros f' stat'. rewrite js_get_set. case_decide as Heq; [|apply Hn].
    intros [= <-]. apply js_wf_set. by eapply Hn.
Qed.

Lemma recorded_add_declared s f k :
  recorded_ok s → f ∈ Stat.fields s → is_Some (Stat.Recorded.add f k s).
Proof.
  intros (_ & _ & Hf & _) Hin. apply Hf in Hin as [stat Hg].
  unfold Stat.Recorded.add. rewrite Hg. by eexists.
Qed.








Lemma pending_clear_recorded s : recorded_ok s → Stat.pending (Stat.clear s) = [].
Proof.
  intros (Hc & Hwf & Hf & Hn). apply pending_clear; [by rewrite Hc|done|].
  intros f v Hin. apply (js_wf_elem _ _ _ Hwf) in Hin. left. apply Hf. by eexists.
Qed.




End RecordedFacts.






Lemma pending_update_numerical (s : Stat.t number) d sqls :
  numerical_ok s → Stat.pending (Stat.update d sqls s).1 = [].
Proof.
  intros Hok.
  destruct (update_cases d sqls s) as [[Hp ->]|[(_ & _ & ->)|(_ & _ & ->)]]; simpl.
  - done.
  - by apply pending_clear_numerical.
  - by apply (pending_clear_numerical (Stat.with_key s (Some d))).
Qed.

Lemma pending_update_recorded (s : Stat.t Stat.StatRecord) d sqls :
  recorded_ok s → Stat.pending (Stat.update d sqls s).1 = [].
Proof.
  intros Hok.
  destruct (update_cases d sqls s) as [[Hp ->]|[(_ & _ & ->)|(_ & _ & ->)]]; simpl.
  - done.
  - by apply pending_clear_recorded.
  - by apply (pending_clear_recorded (Stat.with_key s (Some d))).
Qed.








(** ** The recorded accumulator against the stored map *)

Lemma lookup_list_to_map_js (stat : jsobj N) k :
  (list_to_map stat : gmap string N) !! k = js_get k stat.
Proof.
  induction stat as [|[k1 v1] stat IH]; simpl; [done|].
  case_decide as Heq.
  - subst. apply lookup_insert_eq.
  - rewrite lookup_insert_ne by congruence. done.
Qed.

Lemma lookup_json_merge_fold (stored m : gmap string N) (entries : jsobj N) k :
  js_wf entries →
  foldl (λ m (kv : string * N), <[kv.1 := (default 0 (stored !! kv.1) + kv.2)%N]> m)
    m entries !! k =
  match js_get k entries with
  | Some v => Some (default 0 (stored !! k) + v)%N
  | None => m !! k
  end.
Proof.
  unfold js_wf, js_keys. revert m.
  induction entries as [|[k1 v1] entries IH]; intros m; [done|].
  rewrite fmap_cons, NoDup_cons. intros [Hk Hnd]. simpl.
  rewrite (IH _ Hnd). case_decide as Heq.
  - subst k1. assert (js_get k entries = None) as -> by (by apply js_get_None).
    apply lookup_insert_eq.
  - destruct (js_get k entries); [done|]. by rewrite lookup_insert_ne.
Qed.

Lemma lookup_json_merge (stored : gmap string N) (entries : jsobj N) k :
  js_wf entries →
  Db.json_merge stored entries !! k =
  match js_get k entries with
  | Some v => Some (default 0 (stored !! k) + v)%N
  | None => stored !! k
  end.
Proof. apply lookup_json_merge_fold. Qed.

Lemma pending_recorded_elem (s : Stat.t Stat.StatRecord) a :
  Stat.config s = Stat.Recorded.config →
  a ∈ Stat.pending s ↔
  ∃ f stat, (f, stat) ∈ Stat.data s ∧ stat ≠ [] ∧ a = JsonMerge f stat.
Proof.
  intros Hc. unfold Stat.pending. rewrite Hc, list_elem_of_omap. split.
  - intros ([f stat] & Hin & Hu). exists f, stat. simpl in Hu.
    destruct stat; [done|]. injection Hu as <-. done.
  - intros (f & stat & Hin & Hne & ->). exists (f, stat). split; [done|].
    simpl. by destruct stat.
Qed.

(** C2. On the insert path a recorded accumulator sends, for every field,
    the whole nested map it holds, and the row created stores exactly those
    entries. On the update path it sends one merge per non-empty field, and
    the merge adds each delta to the stored count of its nested key (to
    zero when the key is not stored yet) and leaves every stored key
    without a delta as it is. Merging a:2 into a:3, b:1 gives a:5, b:1;
    three increments of command/help flushed at a bucket store help:3, and
    one more increment flushed at the same bucket makes it help:4. *)
Theorem recorded_insert_full_update_merges :
  (∀ (s : Stat.t Stat.StatRecord) date sqls,
     Stat.config s = Stat.Recorded.config →
     Stat.pending s ≠ [] → Stat.key s ≠ Some date →
     (Stat.update date sqls s).2 =
       sqls ++ [InsertOnDuplicate (Stat.table s) (js_keys (Stat.data s)) date
                  (map VJsonObject (js_values (Stat.data s))) (Stat.pending s)]) ∧
  (∀ (stat : Stat.StatRecord),
     ∃ m, Db.cell_of_value (VJsonObject stat) = Some (Db.CJson m) ∧
          ∀ k, m !! k = js_get k stat) ∧
  (∀ (s : Stat.t Stat.StatRecord) date sqls,
     Stat.config s = Stat.Recorded.config →
     Stat.pending s ≠ [] → Stat.key s = Some date →
     (Stat.update date sqls s).2 =
       sqls ++ [Update (Stat.table s) (Stat.pending s) date] ∧
     ∀ a, a ∈ Stat.pending s ↔
          ∃ f stat, (f, stat) ∈ Stat.data s ∧ stat ≠ [] ∧ a = JsonMerge f stat) ∧
  (∀ (row : gmap string Db.cell) col (stored : gmap string N) (entries : jsobj N),
     row !! col = Some (Db.CJson stored) → js_wf entries →
     ∃ merged,
       Db.exec_assign row (JsonMerge col entries) = Some (<[col := Db.CJson merged]> row) ∧
       ∀ k, merged !! k =
            match js_get k entries with
            | Some delta => Some (default 0 (stored !! k) + delta)%N
            | None => stored !! k
            end) ∧
  Db.json_merge {[ "a" := 3%N; "b" := 1%N ]} [("a", 2%N)] =
    {[ "a" := 5%N; "b" := 1%N ]} ∧
  stored_command (r ← help_first; Db.query r.2 ∅) =
    Some (Db.CJson {[ "help" := 3%N ]}) ∧
  stored_command (r1 ← help_first; r2 ← help_second;
                  db ← Db.query r1.2 ∅; Db.query r2.2 db) =
    Some (Db.CJson {[ "help" := 4%N ]}).
Proof.
  split_and!.
  - intros s date sqls Hc Hp Hk.
    destruct (update_cases date sqls s) as [[? _]|[(_ & ? & _)|(_ & _ & ->)]];
      [done..|]. simpl. by rewrite Hc.
  - intros stat. eexists. split; [done|]. apply lookup_list_to_map_js.
  - intros s date sqls Hc Hp Hk. split.
    + by destruct (update_cases date sqls s) as [[? _]|[(_ & _ & ->)|(_ & ? & _)]].
    + intros a. by apply pending_recorded_elem.
  - intros row col stored entries Hrow Hwf. exists (Db.json_merge stored entries).
    split; [simpl; by rewrite Hrow|]. intros k. by apply lookup_json_merge.
  - by vm_compute.
  - by vm_compute.
  - by vm_compute.
Qed.

Lemma recorded_insert_full_update_merges_witness :
  ∃ merged,
    Db.exec_assign {[ "command" := Db.CJson {[ "a" := 3%N; "b" := 1%N ]} ]}
      (JsonMerge "command" [("a", 2%N); ("c", 7%N)]) =
      Some (<[ "command" := Db.CJson merged ]>
              {[ "command" := Db.CJson {[ "a" := 3%N; "b" := 1%N ]} ]}) ∧
    ∀ k, merged !! k =
         match js_get k [("a", 2%N); ("c", 7%N)] with
         | Some delta =>
             Some (default 0 (({[ "a" := 3%N; "b" := 1%N ]} : gmap string N) !! k)
                   + delta)%N
         | None => ({[ "a" := 3%N; "b" := 1%N ]} : gmap string N) !! k
         end.
Proof.
  apply (proj1 (proj2 (proj2 (proj2 recorded_insert_full_update_merges)))).
  - by vm_compute.
  - apply (bool_decide_unpack _). by vm_compute.
Defined.

(** The text of the two statements of the scenario, as the template
    literals of the source spell it. *)
Example help_statements_text :
  (λ r : Stat.t Stat.StatRecord * list stmt, map render_stmt r.2) <$> help_first =
    Some ["INSERT INTO `stats_daily` (`time`, `command`,`dialogue`,`botSend`,`botReceive`,`group`) VALUES ("
          +:+ dq +:+ "2024-01-01" +:+ dq +:+
          ", JSON_OBJECT('help', 3), JSON_OBJECT(), JSON_OBJECT(), JSON_OBJECT(), JSON_OBJECT()) ON DUPLICATE KEY UPDATE `command` = JSON_SET(`command`, '$."
          +:+ dq +:+ "help" +:+ dq +:+ "', IFNULL(`command`->'$." +:+ dq +:+ "help" +:+ dq +:+
          "', 0) + 3)"] ∧
  (λ r : Stat.t Stat.StatRecord * list stmt, map render_stmt r.2) <$> help_second =
    Some ["UPDATE `stats_daily` SET `command` = JSON_SET(`command`, '$."
          +:+ dq +:+ "help" +:+ dq +:+ "', IFNULL(`command`->'$." +:+ dq +:+ "help" +:+ dq +:+
          "', 0) + 1) WHERE `time` = " +:+ dq +:+ "2024-01-01" +:+ dq].
Proof. split; by vm_compute. Qed.

(** ** The flush check *)

Lemma flush_groups_spec n (g : jsobj N) acc sqls :
  fold_left
    (λ (acc : jsobj N * list stmt) (entry : string * N),
       (js_delete entry.1 acc.1, acc.2 ++ [ActivityUpdate n entry.2 entry.1]))
    g (acc, sqls) =
  (foldl (λ a (e : string * N), js_delete e.1 a) acc g,
   sqls ++ map (λ entry : string * N, ActivityUpdate n entry.2 entry.1) g).
Proof.
  revert acc sqls. induction g as [|e g IH]; intros acc sqls; simpl.
  - by rewrite app_nil_r.
  - rewrite IH. simpl. by rewrite <- app_assoc.
Qed.

Lemma delete_all_elem (g acc : jsobj N) x :
  x ∈ foldl (λ a (e : string * N), js_delete e.1 a) acc g →
  x ∈ acc ∧ x.1 ∉ js_keys g.
Proof.
  unfold js_keys. revert acc. induction g as [|e g IH]; intros acc; simpl.
  - intros Hin. split; [done|]. apply not_elem_of_nil.
  - intros Hin. apply IH in Hin as [Hin Hnot].
    apply list_elem_of_filter in Hin as [Hne Hin]. split; [done|].
    apply not_elem_of_cons. split; [done|done].
Qed.

Lemma flush_groups_empties n (g : jsobj N) sqls :
  flush_groups n g sqls =
  ([], sqls ++ map (λ entry : string * N, ActivityUpdate n entry.2 entry.1) g).
Proof.
  unfold flush_groups. rewrite flush_groups_spec. f_equal.
  destruct (foldl _ g g) as [|x rest] eqn:Hf; [done|].
  assert (x ∈ foldl (λ a (e : string * N), js_delete e.1 a) g g) as Hin
    by (rewrite Hf; left).
  apply delete_all_elem in Hin as [Hin Hnot].
  exfalso. apply Hnot. unfold js_keys. apply list_elem_of_fmap. by exists x.
Qed.

Lemma flush_due_decide date forced st :
  forced
  || bool_decide (valueOf date - valueOf (lastUpdate st) > REFRESH_INTERVAL)%Z
  || bool_decide (getHours date ≠ updateHour st) = true
  ↔ flush_due date forced st.
Proof.
  unfold flush_due.
  rewrite !orb_true_iff, !bool_decide_eq_true. tauto.
Qed.

Lemma updateStats_due date n forced st :
  flush_due date forced st →
  updateStats date n forced st =
  (flushed_state date n st, Flushed (flushed_sqls date n st)).
Proof.
  intros Hdue%flush_due_decide. unfold updateStats. rewrite Hdue.
  rewrite (surjective_pairing (Stat.update (hourString date) [] (hourly st))).
  rewrite (surjective_pairing (Stat.update (toLocaleDateString date) _ (daily st))).
  rewrite (surjective_pairing (Stat.update (toLocaleDateString date) _ (longterm st))).
  rewrite flush_groups_empties.
  unfold flushed_state, flushed_sqls.
  rewrite !update_state_indep.
  rewrite (update_appends _ ((Stat.update (toLocaleDateString date) _ (daily st)).2)).
  rewrite (update_appends _ ((Stat.update (hourString date) [] (hourly st)).2)).
  rewrite (update_state_indep _ _ (longterm st)). by rewrite <- !app_assoc.
Qed.

Lemma updateStats_not_due date n forced st :
  ¬ flush_due date forced st → updateStats date n forced st = (st, NotDue).
Proof.
  intros Hnd. unfold updateStats.
  destruct (forced || _ || _) eqn:Hc; [|done].
  by apply flush_due_decide in Hc.
Qed.

Lemma update_stmt_shape {V : Type} (s : Stat.t V) date x :
  x ∈ (Stat.update date [] s).2 →
  stmt_time x = Some date ∧ stmt_table x = Stat.table s ∧
  stmt_updates x = Stat.pending s ∧ Stat.pending s ≠ [].
Proof.
  destruct (update_cases date [] s) as [[_ ->]|[(? & _ & ->)|(? & _ & ->)]]; simpl.
  - by intros ?%elem_of_nil.
  - intros ->%list_elem_of_singleton. done.
  - intros ->%list_elem_of_singleton. done.
Qed.

(** C4. A flush check flushes exactly when it is forced, or more than
    60000 ms have passed since the last flush, or the hour differs from
    the hour of the last flush; otherwise it does nothing. When it
    flushes it records the clock reading, flushes the three accumulators
    and empties the ledger. In particular a check made after the hour has
    changed flushes even though the refresh interval has not elapsed. *)
Theorem flush_fires_iff_due date n forced st :
  (((updateStats date n forced st).2 ≠ NotDue) ↔
   (forced = true ∨ (valueOf date - valueOf (lastUpdate st) > 60000)%Z ∨
    getHours date ≠ updateHour st)) ∧
  (flush_due date forced st →
   updateStats date n forced st =
     (flushed_state date n st, Flushed (flushed_sqls date n st))) ∧
  (¬ flush_due date forced st → updateStats date n forced st = (st, NotDue)) ∧
  (forced = false → (valueOf date - valueOf (lastUpdate st) ≤ 60000)%Z →
   getHours date ≠ updateHour st →
   updateStats date n forced st =
     (flushed_state date n st, Flushed (flushed_sqls date n st))).
Proof.
  split_and!.
  - change 60000%Z with REFRESH_INTERVAL. fold (flush_due date forced st).
    destruct (decide (flush_due date forced st)) as [Hd|Hd].
    + rewrite updateStats_due by done. simpl. split; [done|]. by intros _ ?.
    + rewrite updateStats_not_due by done. simpl. split; [done|]. by intros ?.
  - apply updateStats_due.
  - apply updateStats_not_due.
  - intros _ _ Hh. apply updateStats_due. right. by right.
Qed.

Lemma flush_fires_iff_due_witness :
  updateStats (clock_reading 40000 11 "2024/1/1") 19723 false
    (initial (clock_reading 0 10 "2024/1/1") 19723) =
  (flushed_state (clock_reading 40000 11 "2024/1/1") 19723
     (initial (clock_reading 0 10 "2024/1/1") 19723),
   Flushed (flushed_sqls (clock_reading 40000 11 "2024/1/1") 19723
              (initial (clock_reading 0 10 "2024/1/1") 19723))).
Proof.
  apply (proj2 (proj2 (proj2 (flush_fires_iff_due
           (clock_reading 40000 11 "2024/1/1") 19723 false
           (initial (clock_reading 0 10 "2024/1/1") 19723))))).
  - reflexivity.
  - simpl. lia.
  - simpl. discriminate.
Defined.

(** C10. A flush check that is not forced, made within 60000 ms of the
    last flush and in the same hour, issues no query and leaves the whole
    state as it was: the data and the key of the three accumulators, the
    ledger, and the recorded time, hour and day number of the last
    flush. *)
Theorem idle_check_changes_nothing date n st :
  (valueOf date - valueOf (lastUpdate st) ≤ 60000)%Z →
  getHours date = updateHour st →
  updateStats date n false st = (st, NotDue) ∧
  queried (updateStats date n false st).2 = None ∧
  Stat.data (hourly (updateStats date n false st).1) = Stat.data (hourly st) ∧
  Stat.key (hourly (updateStats date n false st).1) = Stat.key (hourly st) ∧
  Stat.data (daily (updateStats date n false st).1) = Stat.data (daily st) ∧
  Stat.key (daily (updateStats date n false st).1) = Stat.key (daily st) ∧
  Stat.data (longterm (updateStats date n false st).1) = Stat.data (longterm st) ∧
  Stat.key (longterm (updateStats date n false st).1) = Stat.key (longterm st) ∧
  groups (updateStats date n false st).1 = groups st ∧
  lastUpdate (updateStats date n false st).1 = lastUpdate st ∧
  updateHour (updateStats date n false st).1 = updateHour st ∧
  updateNumber (updateStats date n false st).1 = updateNumber st.
Proof.
  intros Ht Hh.
  assert (updateStats date n false st = (st, NotDue)) as ->; [|done].
  apply updateStats_not_due. unfold flush_due, REFRESH_INTERVAL.
  intros [?|[?|?]]; [done|lia|done].
Qed.

Lemma idle_check_changes_nothing_witness :
  updateStats (clock_reading 60000 10 "2024/1/1") 19724 false
    (initial (clock_reading 0 10 "2024/1/1") 19723) =
  (initial (clock_reading 0 10 "2024/1/1") 19723, NotDue).
Proof.
  apply (idle_check_changes_nothing (clock_reading 60000 10 "2024/1/1") 19724
           (initial (clock_reading 0 10 "2024/1/1") 19723)).
  - simpl. lia.
  - reflexivity.
Defined.




(** ** The activity ledger *)





(** ** Recent averages *)

Lemma js_get_average_add (result : jsobj Z) (stat : jsobj jsval) k :
  js_wf stat →
  js_get k (average_add result stat) =
  match js_get k stat with
  | Some (JNumber n) => Some (default 0 (js_get k result) + n)%Z
  | _ => js_get k result
  end.
Proof.
  unfold js_wf, js_keys, average_add. revert result.
  induction stat as [|[k1 v1] stat IH]; intros result; [done|].
  rewrite fmap_cons, NoDup_cons. intros [Hk Hnd]. simpl.
  rewrite (IH _ Hnd). case_decide as Heq.
  - subst k1. assert (js_get k stat = None) as -> by (by apply js_get_None).
    destruct v1 as [n|]; [|done]. apply js_get_set_eq.
  - destruct v1 as [n|]; [|done]. by rewrite js_get_set_ne.
Qed.

Lemma sum_at_none (stats : list (jsobj jsval)) k :
  existsb (has_num k) stats = false → sum_at k stats = 0%Z.
Proof.
  unfold sum_at, has_num, num_at. induction stats as [|stat stats IH]; simpl; [done|].
  intros [H1 H2]%orb_false_iff. rewrite (IH H2).
  by destruct (js_get k stat) as [[n|]|].
Qed.

Lemma js_get_average_fold (stats : list (jsobj jsval)) (result : jsobj Z) k :
  Forall js_wf stats →
  js_get k (fold_left average_add stats result) =
  if existsb (has_num k) stats
  then Some (default 0 (js_get k result) + sum_at k stats)%Z
  else js_get k result.
Proof.
  revert result. induction stats as [|stat stats IH]; intros result Hwf; [done|].
  apply Forall_cons in Hwf as [Hwf1 Hwf]. simpl.
  rewrite (IH _ Hwf), (js_get_average_add _ _ _ Hwf1).
  destruct (existsb (has_num k) stats) eqn:Hex.
  - rewrite orb_true_r. unfold sum_at, num_at. simpl.
    destruct (js_get k stat) as [[n|]|]; simpl; f_equal; lia.
  - rewrite orb_false_r. unfold sum_at. simpl. fold (sum_at k stats).
    rewrite (sum_at_none _ _ Hex). unfold has_num, num_at.
    destruct (js_get k stat) as [[n|]|]; simpl; [f_equal; lia|done..].
Qed.

Lemma js_get_map_values {A B : Type} (f : A → B) (o : jsobj A) k :
  js_get k (map (λ kv : string * A, (kv.1, f kv.2)) o) = f <$> js_get k o.
Proof.
  induction o as [|[k1 v1] o IH]; simpl; [done|]. by case_decide.
Qed.





(** ** Snapshot assembly *)

Lemma getGroupInfo_caught_failed env pack acc bot :
  getGroupList bot = None → getGroupInfo_caught env pack acc bot = acc.
Proof. intros H. unfold getGroupInfo_caught, getGroupInfo. by rewrite H. Qed.

Lemma collect_fold_skip env pack (bots : list Bot) acc :
  fold_left (getGroupInfo_caught env pack)
    (filter (λ b, is_Some (getGroupList b)) bots) acc =
  fold_left (getGroupInfo_caught env pack) bots acc.
Proof.
  revert acc. induction bots as [|bot bots IH]; intros acc; [done|].
  rewrite filter_cons. destruct (decide (is_Some (getGroupList bot))) as [Hs|Hn]; simpl.
  - apply IH.
  - rewrite IH. f_equal. symmetry. apply getGroupInfo_caught_failed.
    destruct (getGroupList bot); [|done]. exfalso. apply Hn. by eexists.
Qed.

Lemma collect_groups_skip env pack bots :
  collect_groups env pack bots =
  collect_groups env pack (filter (λ b, is_Some (getGroupList b)) bots).
Proof. unfold collect_groups. by rewrite collect_fold_skip. Qed.

(** C9. A bot whose group listing fails contributes nothing and stops
    nothing: its rejection is dropped with the accumulators untouched,
    the bots before and after it are processed as if it were not there,
    and the snapshot assembled (or the failure met elsewhere) is the one
    obtained from the bots whose listing succeeds. *)
Theorem listing_failure_is_skipped env (bots : list Bot) (date : string) :
  (∀ pack acc bot,
     getGroupList bot = None →
     getGroupInfo env pack bot acc = (acc, true) ∧
     getGroupInfo_caught env pack acc bot = acc) ∧
  (∀ pack bots1 bot bots2,
     getGroupList bot = None →
     collect_groups env pack (bots1 ++ bot :: bots2) =
     collect_groups env pack (bots1 ++ bots2)) ∧
  getStatusData env bots date =
    getStatusData env (filter (λ b, is_Some (getGroupList b)) bots) date.
Proof.
  split_and!.
  - intros pack acc bot H. split; [|by apply getGroupInfo_caught_failed].
    unfold getGroupInfo. by rewrite H.
  - intros pack bots1 bot bots2 H. unfold collect_groups.
    rewrite !fold_left_app. simpl. by rewrite getGroupInfo_caught_failed.
  - unfold getStatusData. destruct (query_result env date) as [pack|]; [|done].
    simpl. by rewrite <- collect_groups_skip.
Qed.

Lemma listing_failure_is_skipped_witness :
  collect_groups sample_env sample_pack ([] ++ bad_bot :: [good_bot]) =
  collect_groups sample_env sample_pack ([] ++ [good_bot]).
Proof.
  apply (proj1 (proj2 (listing_failure_is_skipped sample_env [bad_bot; good_bot]
                         "2024/1/2"))).
  reflexivity.
Defined.

(** With the failing bot present the snapshot is returned, with the
    channel the other bot listed. *)
Example snapshot_despite_failure :
  s_groups <$> (cd_extension <$> getStatusData sample_env [bad_bot; good_bot] "2024/1/2") =
  Some [{| g_name := "new"; g_platform := "onebot"; g_assignee := "bot";
           g_value := 20 # 10; g_last := Some (JNumber 10) |}].
Proof. by vm_compute. Qed.

(** ** The snapshot cache *)

Section CacheFacts.
Import StatisticsCache.

Lemma serve_calls dates c :
  calls (serve dates c).1 = calls c ++ date_changes (cachedDate c) dates.
Proof.
  revert c. induction dates as [|d ds IH]; intros c; simpl.
  - by rewrite app_nil_r.
  - unfold patch_begin.
    destruct (serve ds _) as [c2 ps] eqn:Hs. simpl.
    replace c2 with (serve ds
      (if decide (Some d ≠ cachedDate c)
       then {| cachedDate := Some d; cachedData := Some (length (calls c));
               calls := calls c ++ [d] |}
       else c)).1 by (by rewrite Hs).
    rewrite IH. destruct (decide (Some d ≠ cachedDate c)) as [Hne|Heq].
    + rewrite decide_False by done. simpl. by rewrite <- app_assoc.
    + rewrite decide_True; [done|]. by destruct (decide (Some d = cachedDate c)).
Qed.

Lemma date_changes_subset prev dates x : x ∈ date_changes prev dates → x ∈ dates.
Proof.
  revert prev. induction dates as [|d ds IH]; intros prev; simpl; [done|].
  case_decide.
  - intros Hin. right. by eapply IH.
  - intros [->|Hin]%elem_of_cons; [left | right; by eapply IH].
Qed.

Lemma date_changes_back d dates :
  d ∈ date_changes (Some d) dates →
  ∃ l2 d' l3, dates = l2 ++ d' :: l3 ∧ d' ≠ d ∧ d ∈ l3.
Proof.
  induction dates as [|e ds IH]; simpl; [by intros ?%elem_of_nil|].
  case_decide as Heq.
  - injection Heq as ->. intros Hin. destruct (IH Hin) as (l2 & d' & l3 & -> & ? & ?).
    by exists (d :: l2), d', l3.
  - intros [->|Hin]%elem_of_cons; [done|].
    exists [], e, ds. split; [done|]. split; [congruence|].
    by eapply date_changes_subset.
Qed.

Lemma calendar_tail d ds : calendar (d :: ds) → calendar ds.
Proof.
  intros H l1 x l2 x' l3 ->. by apply (H (d :: l1) x l2 x' l3).
Qed.

Lemma date_changes_NoDup prev dates : calendar dates → NoDup (date_changes prev dates).
Proof.
  revert prev. induction dates as [|d ds IH]; intros prev Hcal; simpl.
  - constructor.
  - pose proof (calendar_tail _ _ Hcal) as Hcal'. case_decide; [by apply IH|].
    apply NoDup_cons. split; [|by apply IH].
    intros (l2 & d' & l3 & -> & Hne & Hin)%date_changes_back.
    by apply (Hcal [] d l2 d' l3).
Qed.

Lemma play_cached date evs settled :
  (∀ d, Request d ∈ evs → d = date) →
  (play evs {| cachedDate := Some date; cachedData := Some 0%nat; calls := [date] |}
     settled).1 =
    {| cachedDate := Some date; cachedData := Some 0%nat; calls := [date] |} ∧
  ∀ pr, pr ∈ (play evs
                {| cachedDate := Some date; cachedData := Some 0%nat; calls := [date] |}
                settled).2 → pr.1 = Some 0%nat.
Proof.
  revert settled. induction evs as [|[d|n] evs IH]; intros settled Hall; simpl.
  - split; [done|]. by intros pr ?%elem_of_nil.
  - assert (d = date) as -> by (apply Hall; left).
    unfold patch_begin. simpl. rewrite decide_False by (by intros ?).
    destruct (IH settled) as [H1 H2]; [intros d Hd; apply Hall; by right|].
    destruct (play evs _ settled) as [c2 ps]. simpl in *. split; [done|].
    intros pr [->|Hin]%elem_of_cons; [done | by apply H2].
  - apply IH. intros d Hd. apply Hall. by right.
Qed.

Lemma play_same_date date evs settled :
  (∀ d, Request d ∈ evs → d = date) →
  (Request date ∈ evs → calls (play evs empty settled).1 = [date]) ∧
  ∀ pr, pr ∈ (play evs empty settled).2 → pr.1 = Some 0%nat.
Proof.
  revert settled. induction evs as [|[d|n] evs IH]; intros settled Hall; simpl.
  - split; [by intros ?%elem_of_nil | by intros pr ?%elem_of_nil].
  - assert (d = date) as -> by (apply Hall; left).
    unfold patch_begin. simpl.
    destruct (play_cached date evs settled) as [H1 H2];
      [intros d Hd; apply Hall; by right|].
    destruct (play evs _ settled) as [c2 ps]. simpl in *. split.
    + intros _. by rewrite H1.
    + intros pr [->|Hin]%elem_of_cons; [done | by apply H2].
  - destruct (IH (n :: settled)) as [H1 H2]; [intros d Hd; apply Hall; by right|].
    split; [|done]. intros [?|Hin]%elem_of_cons; [done | by apply H1].
Qed.

Lemma serve_same_date date n :
  serve (replicate (S n) date) empty =
  ({| cachedDate := Some date; cachedData := Some 0%nat; calls := [date] |},
   replicate (S n) (Some 0%nat)).
Proof.
  assert (∀ m, serve (replicate m date)
                 {| cachedDate := Some date; cachedData := Some 0%nat; calls := [date] |} =
               ({| cachedDate := Some date; cachedData := Some 0%nat; calls := [date] |},
                replicate m (Some 0%nat))) as Hrest.
  { induction m as [|m IH]; simpl; [done|].
    unfold patch_begin. simpl. rewrite decide_False by (by intros ?).
    by rewrite IH. }
  simpl. unfold patch_begin. simpl. by rewrite Hrest.
Qed.
End CacheFacts.

(** C6. A request whose date is the cached date starts no computation and
    awaits the cached promise; a request whose date differs starts one
    and caches its promise: the snapshot is recomputed exactly when the
    date changes. Hence two requests for the same date issue the
    historical queries once, any number of requests for one date, served
    before or after the computation settles, all await the one promise of
    the one computation, and over the dates of a calendar no date is
    computed twice. *)
Theorem snapshot_computed_once_per_date :
  (∀ date c,
     StatisticsCache.cachedDate c = Some date →
     StatisticsCache.patch_begin date c = (c, StatisticsCache.cachedData c)) ∧
  (∀ date c,
     StatisticsCache.cachedDate c ≠ Some date →
     StatisticsCache.patch_begin date c =
       ({| StatisticsCache.cachedDate := Some date;
           StatisticsCache.cachedData := Some (length (StatisticsCache.calls c));
           StatisticsCache.calls := StatisticsCache.calls c ++ [date] |},
        Some (length (StatisticsCache.calls c)))) ∧
  (∀ date,
     StatisticsCache.serve [date; date] StatisticsCache.empty =
       ({| StatisticsCache.cachedDate := Some date;
           StatisticsCache.cachedData := Some 0%nat;
           StatisticsCache.calls := [date] |},
        [Some 0%nat; Some 0%nat])) ∧
  (∀ date n,
     StatisticsCache.serve (replicate (S n) date) StatisticsCache.empty =
       ({| StatisticsCache.cachedDate := Some date;
           StatisticsCache.cachedData := Some 0%nat;
           StatisticsCache.calls := [date] |},
        replicate (S n) (Some 0%nat))) ∧
  (∀ date evs settled,
     (∀ d, StatisticsCache.Request d ∈ evs → d = date) →
     (StatisticsCache.Request date ∈ evs →
      StatisticsCache.calls (StatisticsCache.play evs StatisticsCache.empty settled).1 =
        [date]) ∧
     ∀ pr, pr ∈ (StatisticsCache.play evs StatisticsCache.empty settled).2 →
           pr.1 = Some 0%nat) ∧
  (∀ dates,
     StatisticsCache.calls (StatisticsCache.serve dates StatisticsCache.empty).1 =
     date_changes None dates) ∧
  (∀ dates,
     calendar dates →
     NoDup (StatisticsCache.calls (StatisticsCache.serve dates StatisticsCache.empty).1)).
Proof.
  split_and!.
  - intros date c Hc. unfold StatisticsCache.patch_begin.
    rewrite decide_False; [done|]. intros Hne. by apply Hne.
  - intros date c Hc. unfold StatisticsCache.patch_begin.
    rewrite decide_True; [done|]. congruence.
  - intros date. apply (serve_same_date date 1).
  - apply serve_same_date.
  - intros date evs settled. apply play_same_date.
  - intros dates. by rewrite serve_calls.
  - intros dates Hcal. rewrite serve_calls. simpl. by apply date_changes_NoDup.
Qed.

Lemma snapshot_computed_once_per_date_witness :
  NoDup (StatisticsCache.calls
           (StatisticsCache.serve ["2024/1/1"; "2024/1/1"; "2024/1/2"]
              StatisticsCache.empty).1).
Proof.
  apply (proj2 (proj2 (proj2 (proj2 (proj2 (proj2 snapshot_computed_once_per_date)))))).
  intros l1 d l2 d' l3 Heq Hne Hin.
  destruct l1 as [|? [|? [|? l1]]]; simplify_eq/=;
    destruct l2 as [|? [|? l2]]; simplify_eq/=;
    try (by apply elem_of_nil in Hin);
    try (by destruct l2);
    try (by destruct l1).
Defined.

(** Two requests for one date, the second made while the computation is
    still in flight, a third after it has settled: one computation, one
    promise. *)
Example overlapping_requests_share :
  StatisticsCache.play
    [StatisticsCache.Request "2024/1/1"; StatisticsCache.Request "2024/1/1";
     StatisticsCache.Settle 0; StatisticsCache.Request "2024/1/1"]
    StatisticsCache.empty [] =
  ({| StatisticsCache.cachedDate := Some "2024/1/1";
      StatisticsCache.cachedData := Some 0%nat;
      StatisticsCache.calls := ["2024/1/1"] |},
   [(Some 0%nat, false); (Some 0%nat, false); (Some 0%nat, true)]).
Proof. by vm_compute. Qed.

(** The cache holds one date: the hypothesis on the dates is needed. *)
Example cache_holds_one_date :
  StatisticsCache.calls
    (StatisticsCache.serve ["2024/1/1"; "2024/1/2"; "2024/1/1"]
       StatisticsCache.empty).1 =
  ["2024/1/1"; "2024/1/2"; "2024/1/1"].
Proof. reflexivity. Qed.

(** * Further properties of the engine *)

(** ** The state over a trace *)

Lemma js_keys_set_present {V : Type} k (v : V) (o : jsobj V) :
  k ∈ js_keys o → js_keys (js_set k v o) = js_keys o.
Proof.
  intros Hin. unfold js_set. destruct (js_get k o) eqn:Hk.
  - apply js_keys_replace.
  - by apply js_get_None in Hk.
Qed.

Lemma js_keys_clear_fold {V : Type} (x : V) (fs : list string) (d : jsobj V) :
  (∀ f, f ∈ fs → f ∈ js_keys d) →
  js_keys (fold_left (λ d key, js_set key x d) fs d) = js_keys d.
Proof.
  revert d. induction fs as [|f fs IH]; intros d Hin; simpl; [done|].
  assert (js_keys (js_set f x d) = js_keys d) as Hk
    by (apply js_keys_set_present, Hin; left).
  rewrite IH; [done|]. intros f' Hf'. rewrite Hk. apply Hin. by right.
Qed.

Lemma table_update {V : Type} (s : Stat.t V) date sqls :
  Stat.table (Stat.update date sqls s).1 = Stat.table s.
Proof.
  by destruct (update_cases date sqls s) as [[_ ->]|[(_ & _ & ->)|(_ & _ & ->)]].
Qed.

Lemma js_keys_update {V : Type} (s : Stat.t V) date sqls :
  js_keys (Stat.data s) = Stat.fields s →
  js_keys (Stat.data (Stat.update date sqls s).1) = Stat.fields s.
Proof.
  intros Hk.
  destruct (update_cases date sqls s) as [[_ ->]|[(_ & _ & ->)|(_ & _ & ->)]];
    simpl; [done| |]; rewrite js_keys_clear_fold; try done;
    intros f Hf; by rewrite Hk.
Qed.

Lemma step_counted_checks e st :
  step e st =
  st1 ← counted e st;
  Some (match checks e with
        | Some (now, n, forced) => updateStats now n forced st1
        | None => (st1, NotDue)
        end).
Proof.
  destruct e as [now s|now n s|now n tested name|now n id|now arg0 ty|now n]; simpl;
    try done.
  - unfold updateSendStats, send_counts.
    destruct (daily_add "botSend" _ _) as [st1|]; simpl; [|done].
    destruct (session_subtype s); simpl; [|done].
    by destruct (daily_add "group" _ _).
  - by destruct tested.
Qed.

Lemma state_ok_initial now n : state_ok (initial now n).
Proof.
  unfold state_ok, initial. simpl.
  split_and!; try done;
    try apply recorded_ok_new; try apply numerical_ok_new.
  apply js_wf_nil.
Qed.

Lemma state_ok_updateStats date n forced st :
  state_ok st → state_ok (updateStats date n forced st).1.
Proof.
  intros Hok. destruct (decide (flush_due date forced st)) as [Hd|Hd].
  - rewrite updateStats_due by done. simpl.
    destruct Hok as (Hd1 & Hd2 & Hd3 & Hd4 & Hh1 & Hh2 & Hh3 & Hh4 & Hl1 & Hl2 & Hl3 & Hl4 & Hg).
    unfold state_ok, flushed_state. simpl.
    rewrite !table_update, !fields_update.
    split_and!; try done.
    + by apply recorded_ok_update.
    + rewrite <- Hd3. apply js_keys_update. congruence.
    + by apply numerical_ok_update.
    + rewrite <- Hh3. apply js_keys_update. congruence.
    + by apply numerical_ok_update.
    + rewrite <- Hl3. apply js_keys_update. congruence.
    + apply js_wf_nil.
  - by rewrite updateStats_not_due.
Qed.

Lemma filter_table_all t (l : list stmt) :
  (∀ x, x ∈ l → stmt_table x = t) → filter (λ x, stmt_table x = t) l = l.
Proof.
  induction l as [|x l IH]; intros H; [done|].
  rewrite filter_cons, decide_True by (apply H; left).
  rewrite IH; [done|]. intros y Hy. apply H. by right.
Qed.

Lemma filter_table_none t (l : list stmt) :
  (∀ x, x ∈ l → stmt_table x ≠ t) → filter (λ x, stmt_table x = t) l = [].
Proof.
  induction l as [|x l IH]; intros H; [done|].
  rewrite filter_cons, decide_False by (apply H; left).
  apply IH. intros y Hy. apply H. by right.
Qed.

Lemma update_table_elem {V : Type} (s : Stat.t V) date x :
  x ∈ (Stat.update date [] s).2 → stmt_table x = Stat.table s.
Proof. intros Hx. by apply update_stmt_shape in Hx as (_ & ? & _). Qed.

Lemma activity_table_elem n (g : jsobj N) x :
  x ∈ map (λ e : string * N, ActivityUpdate n e.2 e.1) g → stmt_table x = "channel".
Proof. by intros (e & -> & _)%list_elem_of_fmap. Qed.

(** The statements of a flush that address one of the three tables. *)
Lemma flushed_sqls_filter date n st t :
  state_ok st →
  filter (λ x, stmt_table x = t) (flushed_sqls date n st) =
  if decide (t = "stats_hourly") then (Stat.update (hourString date) [] (hourly st)).2
  else if decide (t = "stats_daily")
       then (Stat.update (toLocaleDateString date) [] (daily st)).2
  else if decide (t = "stats_longterm")
       then (Stat.update (toLocaleDateString date) [] (longterm st)).2
  else if decide (t = "channel")
       then map (λ e : string * N, ActivityUpdate n e.2 e.1) (groups st)
  else [].
Proof.
  intros (_ & Hd & _ & _ & _ & Hh & _ & _ & _ & Hl & _).
  unfold flushed_sqls. rewrite !filter_app.
  assert (∀ x, x ∈ (Stat.update (hourString date) [] (hourly st)).2 →
               stmt_table x = "stats_hourly") as H1
    by (intros x Hx; apply update_table_elem in Hx; congruence).
  assert (∀ x, x ∈ (Stat.update (toLocaleDateString date) [] (daily st)).2 →
               stmt_table x = "stats_daily") as H2
    by (intros x Hx; apply update_table_elem in Hx; congruence).
  assert (∀ x, x ∈ (Stat.update (toLocaleDateString date) [] (longterm st)).2 →
               stmt_table x = "stats_longterm") as H3
    by (intros x Hx; apply update_table_elem in Hx; congruence).
  pose proof (activity_table_elem n (groups st)) as H4.
  repeat case_decide; subst;
    repeat (first
      [ rewrite (filter_table_all _ _ H1) | rewrite (filter_table_all _ _ H2)
      | rewrite (filter_table_all _ _ H3) | rewrite (filter_table_all _ _ H4)
      | rewrite (filter_table_none _ (Stat.update (hourString date) [] (hourly st)).2)
          by (intros x Hx; rewrite (H1 x Hx); congruence)
      | rewrite (filter_table_none _ (Stat.update (toLocaleDateString date) [] (daily st)).2)
          by (intros x Hx; rewrite (H2 x Hx); congruence)
      | rewrite (filter_table_none _ (Stat.update (toLocaleDateString date) [] (longterm st)).2)
          by (intros x Hx; rewrite (H3 x Hx); congruence)
      | rewrite (filter_table_none _ (map _ (groups st)))
          by (intros x Hx; rewrite (H4 x Hx); congruence) ]);
    by rewrite ?app_nil_r.
Qed.

Lemma sent_updateStats date n forced st :
  sent (updateStats date n forced st).2 =
  if decide (flush_due date forced st) then flushed_sqls date n st else [].
Proof.
  case_decide.
  - by rewrite updateStats_due.
  - by rewrite updateStats_not_due.
Qed.

Lemma flush_keeps_hourly date n forced st f :
  state_ok st → f ∈ hourlyFields →
  (flushed_in "stats_hourly" f (sent (updateStats date n forced st).2)
   + held f (hourly (updateStats date n forced st).1))%N = held f (hourly st).
Proof.
  intros Hok Hf. unfold flushed_in. rewrite sent_updateStats.
  destruct (decide (flush_due date forced st)) as [Hd|Hd].
  - rewrite updateStats_due, flushed_sqls_filter by done. simpl.
    destruct Hok as (_ & _ & _ & _ & Hh & _ & Hhf & _).
    apply flushed_update; [done | by rewrite Hhf].
  - rewrite updateStats_not_due by done. done.
Qed.

Lemma flush_keeps_longterm date n forced st f :
  state_ok st → f ∈ longtermFields →
  (flushed_in "stats_longterm" f (sent (updateStats date n forced st).2)
   + held f (longterm (updateStats date n forced st).1))%N = held f (longterm st).
Proof.
  intros Hok Hf. unfold flushed_in. rewrite sent_updateStats.
  destruct (decide (flush_due date forced st)) as [Hd|Hd].
  - rewrite updateStats_due, flushed_sqls_filter by done. simpl.
    destruct Hok as (_ & _ & _ & _ & _ & _ & _ & _ & Hl & _ & Hlf & _).
    apply flushed_update; [done | by rewrite Hlf].
  - rewrite updateStats_not_due by done. done.
Qed.






(** A quantity that every handler raises by the weight of its event and
    every flush moves into the statements is conserved over a trace. *)
Section Conservation.
Variable held_now : State → N.
Variable moved : list stmt → N.
Variable weight : event → N.
Hypothesis moved_nil : moved [] = 0%N.
Hypothesis moved_app : ∀ a b, moved (a ++ b) = (moved a + moved b)%N.
Hypothesis counted_weight : ∀ e st st1,
  state_ok st → counted e st = Some st1 → held_now st1 = (held_now st + weight e)%N.
Hypothesis flush_moves : ∀ date n forced st,
  state_ok st →
  (moved (sent (updateStats date n forced st).2)
   + held_now (updateStats date n forced st).1)%N = held_now st.
Hypothesis counted_ok : ∀ e st st1,
  state_ok st → counted e st = Some st1 → state_ok st1.

Lemma step_conserves e st st' o :
  state_ok st → step e st = Some (st', o) →
  state_ok st' ∧ (moved (sent o) + held_now st')%N = (held_now st + weight e)%N.
Proof.
  intros Hok. rewrite step_counted_checks.
  destruct (counted e st) as [st1|] eqn:Hc; simpl; [|done].
  pose proof (counted_ok _ _ _ Hok Hc) as Hok1.
  pose proof (counted_weight _ _ _ Hok Hc) as Hw.
  destruct (checks e) as [[[now n] forced]|].
  - intros [= Hu]. 
    pose proof (flush_moves now n forced st1 Hok1) as Hf.
    pose proof (state_ok_updateStats now n forced st1 Hok1) as Hok2.
    rewrite Hu in Hf, Hok2. simpl in *. split; [done|]. lia.
  - intros [= <- <-]. simpl. rewrite moved_nil. split; [done|]. lia.
Qed.

Lemma run_conserves evs st st' out :
  state_ok st → run_events evs st = Some (st', out) →
  state_ok st' ∧ (moved out + held_now st')%N = (held_now st + sum_N (map weight evs))%N.
Proof.
  revert st st' out. induction evs as [|e evs IH]; intros st st' out Hok; simpl.
  - intros [= <- <-]. rewrite moved_nil. split; [done|]. lia.
  - destruct (step e st) as [[st1 o]|] eqn:Hs; simpl; [|done].
    destruct (run_events evs st1) as [[st2 out2]|] eqn:Hr; simpl; [|done].
    intros [= <- <-].
    destruct (step_conserves _ _ _ _ Hok Hs) as [Hok1 H1].
    destruct (IH _ _ _ Hok1 Hr) as [Hok2 H2].
    split; [done|]. rewrite moved_app. lia.
Qed.
End Conservation.

Lemma hourly_incr_ok st f :
  state_ok st → f ∈ hourlyFields →
  state_ok (set_hourly st (Stat.Numerical.incr f (hourly st))).
Proof.
  intros (Hd1 & Hd2 & Hd3 & Hd4 & Hh1 & Hh2 & Hh3 & Hh4 & Hl) Hf.
  unfold state_ok. simpl. split_and!; try done; try apply Hl.
  - by apply numerical_ok_incr.
  - rewrite js_keys_set_present; [done|]. by rewrite Hh4.
Qed.

Lemma longterm_incr_ok st f :
  state_ok st → f ∈ longtermFields →
  state_ok (set_longterm st (Stat.Numerical.incr f (longterm st))).
Proof.
  intros (Hd1 & Hd2 & Hd3 & Hd4 & Hh1 & Hh2 & Hh3 & Hh4 & Hl1 & Hl2 & Hl3 & Hl4 & Hg) Hf.
  unfold state_ok. simpl. split_and!; try done.
  - by apply numerical_ok_incr.
  - rewrite js_keys_set_present; [done|]. by rewrite Hl4.
Qed.

Lemma daily_add_ok st f k :
  state_ok st → f ∈ dailyFields →
  ∃ st1, daily_add f k st = Some st1 ∧ state_ok st1 ∧
         hourly st1 = hourly st ∧ longterm st1 = longterm st ∧
         groups st1 = groups st ∧
         Stat.Recorded.add f k (daily st) = Some (daily st1).
Proof.
  intros (Hd1 & Hd2 & Hd3 & Hd4 & Hrest) Hf.
  destruct (recorded_add_declared (daily st) f k Hd1) as [d1 Hadd];
    [by rewrite Hd3|].
  unfold daily_add. rewrite Hadd. simpl. eexists. split; [done|].
  pose proof (recorded_ok_add _ _ _ _ Hd1 Hadd) as [Hok1 Hf1].
  split; [|done]. unfold state_ok. simpl. split_and!; try apply Hrest; try done.
  - unfold Stat.Recorded.add in Hadd.
    destruct (js_get f (Stat.data (daily st))); simpl in Hadd; [|done].
    by injection Hadd as <-.
  - congruence.
  - unfold Stat.Recorded.add in Hadd.
    destruct (js_get f (Stat.data (daily st))) eqn:Hg; simpl in Hadd; [|done].
    injection Hadd as <-. simpl. rewrite js_keys_set_present; [done|].
    by rewrite Hd4.
Qed.

Lemma groups_set_ok st id v :
  state_ok st → state_ok (set_groups st (js_set id v (groups st))).
Proof.
  intros (Hd1 & Hd2 & Hd3 & Hd4 & Hh1 & Hh2 & Hh3 & Hh4 & Hl1 & Hl2 & Hl3 & Hl4 & Hg).
  unfold state_ok. simpl. split_and!; try done. by apply js_wf_set.
Qed.

Lemma in_hourlyFields_total : "total" ∈ hourlyFields.
Proof. apply (bool_decide_unpack _). by vm_compute. Qed.

Lemma in_longtermFields_message : "message" ∈ longtermFields.
Proof. apply (bool_decide_unpack _). by vm_compute. Qed.

Lemma in_hourlyFields_subtype s : subtype_name s ∈ hourlyFields.
Proof. destruct s; apply (bool_decide_unpack _); by vm_compute. Qed.

Lemma in_hourlyFields_sendType s : sendType_name s ∈ hourlyFields.
Proof. destruct s; apply (bool_decide_unpack _); by vm_compute. Qed.

(** What [send_counts] leaves in each part of the state. *)
Lemma send_counts_spec session st :
  state_ok st →
  ∃ st1 d1,
    send_counts session st = Some st1 ∧ state_ok st1 ∧
    hourly st1 =
      Stat.Numerical.incr (subtype_name (session_subtype session))
        (Stat.Numerical.incr "total" (hourly st)) ∧
    longterm st1 = Stat.Numerical.incr "message" (longterm st) ∧
    Stat.Recorded.add "botSend" (selfId session) (daily st) = Some d1 ∧
    match session_subtype session with
    | SubGroup =>
        Stat.Recorded.add "group" (groupId session) d1 = Some (daily st1) ∧
        groups st1 =
          js_set (groupId session)
            (default 0%N (js_get (groupId session) (groups st)) + 1)%N (groups st)
    | SubPrivate => daily st1 = d1 ∧ groups st1 = groups st
    end.
Proof.
  intros Hok. unfold send_counts.
  pose proof (hourly_incr_ok st "total" Hok in_hourlyFields_total) as Hok1.
  set (st1 := set_hourly st _) in *.
  pose proof (hourly_incr_ok st1 _ Hok1 (in_hourlyFields_subtype (session_subtype session)))
    as Hok2.
  set (st2 := set_hourly st1 _) in *.
  pose proof (longterm_incr_ok st2 "message" Hok2 in_longtermFields_message) as Hok3.
  set (st3 := set_longterm st2 _) in *.
  destruct (daily_add_ok st3 "botSend" (selfId session) Hok3) as
    (st4 & Ha4 & Hok4 & Hh4 & Hl4 & Hg4 & Hadd4);
    [apply (bool_decide_unpack _); by vm_compute|].
  rewrite Ha4. simpl. destruct (session_subtype session) eqn:Hsub.
  - destruct (daily_add_ok st4 "group" (groupId session) Hok4) as
      (st5 & Ha5 & Hok5 & Hh5 & Hl5 & Hg5 & Hadd5);
      [apply (bool_decide_unpack _); by vm_compute|].
    rewrite Ha5. simpl. eexists _, (daily st4). split; [done|].
    split; [by apply groups_set_ok|]. simpl.
    rewrite Hh5, Hh4, Hl5, Hl4, Hg5, Hg4.
    subst st1 st2 st3. simpl in *. by split_and!.
  - eexists st4, (daily st4). split; [done|]. split; [done|].
    rewrite Hh4, Hl4, Hg4.
    subst st1 st2 st3. simpl in *. by split_and!.
Qed.

Lemma counted_state_ok e st :
  state_ok st → ∃ st1, counted e st = Some st1 ∧ state_ok st1.
Proof.
  intros Hok.
  destruct e as [now s|now n s|now n tested name|now n id|now arg0 ty|now n]; simpl.
  - destruct (daily_add_ok st "botReceive" (selfId s) Hok) as (st1 & ? & ? & _);
      [apply (bool_decide_unpack _); by vm_compute|]. by exists st1.
  - destruct (send_counts_spec s st Hok) as (st1 & d1 & ? & ? & _). by exists st1.
  - destruct tested; [by exists st|].
    destruct (daily_add_ok st "command" name Hok) as (st1 & ? & ? & _);
      [apply (bool_decide_unpack _); by vm_compute|]. by exists st1.
  - destruct (daily_add_ok st "dialogue" id Hok) as (st1 & ? & ? & _);
      [apply (bool_decide_unpack _); by vm_compute|]. by exists st1.
  - eexists. split; [done|]. unfold Session_send.
    destruct ty as [ty|]; [|done]. destruct arg0; [|done].
    apply hourly_incr_ok; [done | apply in_hourlyFields_sendType].
  - by exists st.
Qed.

Lemma counted_keeps_ok e st st1 :
  state_ok st → counted e st = Some st1 → state_ok st1.
Proof.
  intros Hok Hc. destruct (counted_state_ok e st Hok) as (st1' & Hc' & Hok').
  congruence.
Qed.

Lemma run_events_total evs st :
  state_ok st → ∃ st' out, run_events evs st = Some (st', out) ∧ state_ok st'.
Proof.
  revert st. induction evs as [|e evs IH]; intros st Hok; simpl.
  - by exists st, [].
  - rewrite step_counted_checks.
    destruct (counted_state_ok e st Hok) as (st1 & -> & Hok1). simpl.
    set (r := match checks e with Some _ => _ | None => _ end).
    assert (state_ok r.1) as Hok2.
    { unfold r. destruct (checks e) as [[[now n] forced]|]; [|done].
      by apply state_ok_updateStats. }
    destruct (IH _ Hok2) as (st' & out & -> & Hok'). simpl. by eexists _, _.
Qed.

Lemma daily_add_unique st f k st1 :
  state_ok st → f ∈ dailyFields → daily_add f k st = Some st1 →
  hourly st1 = hourly st ∧ longterm st1 = longterm st ∧ groups st1 = groups st ∧
  Stat.Recorded.add f k (daily st) = Some (daily st1).
Proof.
  intros Hok Hf Ha.
  destruct (daily_add_ok st f k Hok Hf) as (st1' & Ha' & _ & ? & ? & ? & ?).
  assert (st1' = st1) as <- by congruence. done.
Qed.

Lemma send_counts_unique session st st1 :
  state_ok st → send_counts session st = Some st1 →
  hourly st1 =
    Stat.Numerical.incr (subtype_name (session_subtype session))
      (Stat.Numerical.incr "total" (hourly st)) ∧
  longterm st1 = Stat.Numerical.incr "message" (longterm st) ∧
  ∃ d1, Stat.Recorded.add "botSend" (selfId session) (daily st) = Some d1 ∧
        match session_subtype session with
        | SubGroup =>
            Stat.Recorded.add "group" (groupId session) d1 = Some (daily st1) ∧
            groups st1 =
              js_set (groupId session)
                (default 0%N (js_get (groupId session) (groups st)) + 1)%N (groups st)
        | SubPrivate => daily st1 = d1 ∧ groups st1 = groups st
        end.
Proof.
  intros Hok Hs.
  destruct (send_counts_spec session st Hok) as (st1' & d1 & Hs' & _ & ? & ? & ? & ?).
  assert (st1' = st1) as <- by congruence. split; [done|]. split; [done|].
  by exists d1.
Qed.

Lemma counted_hourly f e st st1 :
  f ∈ hourlyFields → state_ok st → counted e st = Some st1 →
  held f (hourly st1) = (held f (hourly st) + hourly_weight f e)%N.
Proof.
  intros Hf Hok.
  pose proof Hok as (_ & _ & _ & _ & Hh & _ & Hhf & _).
  destruct e as [now s|now n s|now n tested name|now n id|now arg0 ty|now n]; simpl.
  - intros Ha. apply daily_add_unique in Ha as (-> & _); [lia|done|].
    apply (bool_decide_unpack _). by vm_compute.
  - intros Hs. apply send_counts_unique in Hs as (-> & _); [|done].
    rewrite held_incr; [|by apply numerical_ok_incr|by (simpl; rewrite Hhf)].
    rewrite held_incr; [|done|by rewrite Hhf].
    repeat case_decide; try congruence; lia.
  - destruct tested; [intros [= <-]; lia|].
    intros Ha. apply daily_add_unique in Ha as (-> & _); [lia|done|].
    apply (bool_decide_unpack _). by vm_compute.
  - intros Ha. apply daily_add_unique in Ha as (-> & _); [lia|done|].
    apply (bool_decide_unpack _). by vm_compute.
  - intros [= <-]. unfold Session_send.
    destruct ty as [ty|]; [|destruct arg0; lia]. destruct arg0; [|lia]. simpl.
    rewrite held_incr; [|done|by rewrite Hhf].
    repeat case_decide; try congruence; lia.
  - intros [= <-]. lia.
Qed.

Lemma counted_longterm e st st1 :
  state_ok st → counted e st = Some st1 →
  held "message" (longterm st1) = (held "message" (longterm st) + longterm_weight e)%N.
Proof.
  intros Hok.
  pose proof Hok as (_ & _ & _ & _ & _ & _ & _ & _ & Hl & _ & Hlf & _).
  destruct e as [now s|now n s|now n tested name|now n id|now arg0 ty|now n]; simpl.
  - intros Ha. apply daily_add_unique in Ha as (_ & -> & _); [lia|done|].
    apply (bool_decide_unpack _). by vm_compute.
  - intros Hs. apply send_counts_unique in Hs as (_ & -> & _); [|done].
    rewrite held_incr; [|done|rewrite Hlf; apply in_longtermFields_message].
    by rewrite decide_True.
  - destruct tested; [intros [= <-]; lia|].
    intros Ha. apply daily_add_unique in Ha as (_ & -> & _); [lia|done|].
    apply (bool_decide_unpack _). by vm_compute.
  - intros Ha. apply daily_add_unique in Ha as (_ & -> & _); [lia|done|].
    apply (bool_decide_unpack _). by vm_compute.
  - intros [= <-]. unfold Session_send.
    destruct ty as [ty|]; [|lia]. destruct arg0; simpl; lia.
  - intros [= <-]. lia.
Qed.



Lemma flushed_in_app t f (a b : list stmt) :
  flushed_in t f (a ++ b) = (flushed_in t f a + flushed_in t f b)%N.
Proof. unfold flushed_in. by rewrite filter_app, flushed_app. Qed.


Lemma hourly_weight_total evs :
  sum_N (map (hourly_weight "total") evs) = before_sends (λ _, true) evs.
Proof.
  unfold before_sends. induction evs as [|e evs IH]; simpl; [done|]. rewrite IH.
  f_equal. destruct e as [| ? ? s | | | ? arg0 [ty|] |]; simpl; try done.
  - by destruct (session_subtype s).
  - destruct arg0; [|done]. by destruct ty.
  - by destruct arg0.
Qed.

Lemma hourly_weight_group evs :
  sum_N (map (hourly_weight "group") evs) = before_sends is_group evs.
Proof.
  unfold before_sends, is_group. induction evs as [|e evs IH]; simpl; [done|].
  rewrite IH. f_equal. destruct e as [| ? ? s | | | ? arg0 [ty|] |]; simpl; try done.
  - by destruct (session_subtype s).
  - destruct arg0; [|done]. by destruct ty.
  - by destruct arg0.
Qed.

Lemma hourly_weight_private evs :
  sum_N (map (hourly_weight "private") evs) = before_sends (λ s, negb (is_group s)) evs.
Proof.
  unfold before_sends, is_group. induction evs as [|e evs IH]; simpl; [done|].
  rewrite IH. f_equal. destruct e as [| ? ? s | | | ? arg0 [ty|] |]; simpl; try done.
  - by destruct (session_subtype s).
  - destruct arg0; [|done]. by destruct ty.
  - by destruct arg0.
Qed.

Lemma before_sends_split evs :
  (before_sends is_group evs + before_sends (λ s, negb (is_group s)) evs)%N =
  before_sends (λ _, true) evs.
Proof.
  unfold before_sends. induction evs as [|e evs IH]; simpl; [done|].
  destruct e as [| ? ? s | | | |]; simpl; try lia.
  destruct (is_group s); simpl; lia.
Qed.

Lemma longterm_weight_total evs :
  sum_N (map longterm_weight evs) = before_sends (λ _, true) evs.
Proof.
  unfold before_sends. induction evs as [|e evs IH]; simpl; [done|]. rewrite IH.
  by destruct e.
Qed.



Lemma held_new table fields f : held f (Stat.Numerical.new table fields) = 0%N.
Proof.
  unfold held, Stat.Numerical.new, Stat.new. rewrite js_get_clear. simpl.
  by case_decide.
Qed.


(** X1. From the state the module is loaded with, every sequence of
    framework events is handled to the end: no handler throws. The state
    reached keeps the shape of the loaded one: the slots of the three
    accumulators are their declared fields in declared order, so every
    insert names the same columns, the numerical slots hold numbers,
    never [NaN], and the ledger has no channel twice. *)
Theorem events_never_throw (evs : list event) (now : Date) (n : Z) :
  ∃ st out,
    run_events evs (initial now n) = Some (st, out) ∧
    js_keys (Stat.data (hourly st)) = hourlyFields ∧
    js_keys (Stat.data (daily st)) = dailyFields ∧
    js_keys (Stat.data (longterm st)) = longtermFields ∧
    (∀ f, f ∈ hourlyFields → ∃ v, js_get f (Stat.data (hourly st)) = Some (Num v)) ∧
    (∀ f, f ∈ longtermFields → ∃ v, js_get f (Stat.data (longterm st)) = Some (Num v)) ∧
    (∀ f, f ∈ dailyFields → is_Some (js_get f (Stat.data (daily st)))) ∧
    js_wf (groups st).
Proof.
  destruct (run_events_total evs (initial now n) (state_ok_initial now n))
    as (st & out & Hrun & Hok).
  exists st, out. split; [done|].
  destruct Hok as (Hd1 & Hd2 & Hd3 & Hd4 & Hh1 & Hh2 & Hh3 & Hh4 & Hl1 & Hl2 & Hl3 & Hl4 & Hg).
  split_and!; try done.
  - intros f Hf. apply Hh1. by rewrite Hh3.
  - intros f Hf. apply Hl1. by rewrite Hl3.
  - intros f Hf. apply Hd1. by rewrite Hd3.
Qed.

(** X2. Every outgoing message is counted once in the hourly and the
    longterm table, whenever the flushes happen: for each hourly field the
    amounts sent to [stats_hourly] so far plus the amount still held equal
    the number of times the events counted towards it. In particular the
    hourly [total] and the longterm [message] both equal the number of
    [before-send] events, and [group] plus [private] equals [total]. *)
Theorem outgoing_messages_counted_once (evs : list event) (now : Date) (n : Z) :
  ∃ st out,
    run_events evs (initial now n) = Some (st, out) ∧
    (∀ f, f ∈ hourlyFields →
       (flushed_in "stats_hourly" f out + held f (hourly st))%N =
       sum_N (map (hourly_weight f) evs)) ∧
    (flushed_in "stats_hourly" "total" out + held "total" (hourly st))%N =
      before_sends (λ _, true) evs ∧
    (flushed_in "stats_longterm" "message" out + held "message" (longterm st))%N =
      before_sends (λ _, true) evs ∧
    ((flushed_in "stats_hourly" "group" out + held "group" (hourly st)) +
     (flushed_in "stats_hourly" "private" out + held "private" (hourly st)))%N =
      (flushed_in "stats_hourly" "total" out + held "total" (hourly st))%N.
Proof.
  destruct (run_events_total evs (initial now n) (state_ok_initial now n))
    as (st & out & Hrun & Hok).
  exists st, out. split; [done|].
  assert (∀ f, f ∈ hourlyFields →
            (flushed_in "stats_hourly" f out + held f (hourly st))%N =
            sum_N (map (hourly_weight f) evs)) as Hh.
  { intros f Hf.
    destruct (run_conserves (λ st, held f (hourly st)) (flushed_in "stats_hourly" f)
                (hourly_weight f) eq_refl (flushed_in_app _ _)
                (λ e st st1, counted_hourly f e st st1 Hf)
                (λ date n forced st Hst, flush_keeps_hourly date n forced st f Hst Hf)
                counted_keeps_ok evs _ _ _ (state_ok_initial now n) Hrun) as [_ H].
    rewrite H.
    change (hourly (initial now n)) with (Stat.Numerical.new "stats_hourly" hourlyFields).
    rewrite held_new. lia. }
  split; [done|].
  pose proof (Hh "total" in_hourlyFields_total) as Ht.
  pose proof (Hh _ (in_hourlyFields_subtype SubGroup)) as Hg.
  pose proof (Hh _ (in_hourlyFields_subtype SubPrivate)) as Hp.
  simpl in Hg, Hp.
  rewrite hourly_weight_total in Ht.
  rewrite hourly_weight_group in Hg. rewrite hourly_weight_private in Hp.
  split; [done|]. split.
  - destruct (run_conserves (λ st, held "message" (longterm st))
                (flushed_in "stats_longterm" "message")
                longterm_weight eq_refl (flushed_in_app _ _)
                counted_longterm
                (λ date n forced st Hst,
                   flush_keeps_longterm date n forced st "message" Hst
                     in_longtermFields_message)
                counted_keeps_ok evs _ _ _ (state_ok_initial now n) Hrun) as [_ H].
    rewrite H, longterm_weight_total.
    change (longterm (initial now n))
      with (Stat.Numerical.new "stats_longterm" longtermFields).
    rewrite held_new. lia.
  - rewrite Hg, Hp, Ht. apply before_sends_split.
Qed.



(** ** Checks that follow a flush *)

Lemma update_silent {V : Type} (s : Stat.t V) date :
  Stat.pending s = [] → (Stat.update date [] s).2 = [].
Proof.
  intros Hp.
  by destruct (update_cases date [] s) as [[_ ->]|[(Hne & _)|(Hne & _)]].
Qed.

Lemma flushed_state_silent date n st date' n' :
  state_ok st → flushed_sqls date' n' (flushed_state date n st) = [].
Proof.
  intros (Hd & _ & _ & _ & Hh & _ & _ & _ & Hl & _).
  unfold flushed_sqls, flushed_state. simpl.
  rewrite !update_silent; [done|..].
  - by apply pending_update_numerical.
  - by apply pending_update_recorded.
  - by apply pending_update_numerical.
Qed.

(** X5. A flush check repeated at the same clock reading, not forced,
    does nothing. After a forced flush, any further check, whatever the
    clock reads and forced or not, sends no query: there is nothing left
    to write. *)
Theorem check_after_flush_is_quiet :
  (∀ date n n' forced st,
     updateStats date n' false (updateStats date n forced st).1 =
       ((updateStats date n forced st).1,
        if decide (flush_due date forced st) then NotDue
        else (updateStats date n' false st).2) ∧
     (updateStats date n' false (updateStats date n forced st).1).2 = NotDue) ∧
  (∀ date n st date' n' forced',
     state_ok st →
     queried (updateStats date' n' forced' (updateStats date n true st).1).2 = None).
Proof.
  split.
  - intros date n n' forced st.
    destruct (decide (flush_due date forced st)) as [Hd|Hd].
    + rewrite (updateStats_due date n) by done. simpl.
      rewrite updateStats_not_due; [done|].
      unfold flush_due, flushed_state, REFRESH_INTERVAL. simpl.
      intros [?|[?|?]]; [done|lia|done].
    + rewrite (updateStats_not_due date n) by done. simpl.
      assert (¬ flush_due date false st) as Hd'.
      { intros [?|H]; [done|]. apply Hd. by right. }
      by rewrite updateStats_not_due.
  - intros date n st date' n' forced' Hok.
    rewrite (updateStats_due date n true st) by (by left). simpl.
    destruct (decide (flush_due date' forced' (flushed_state date n st))) as [Hd|Hd].
    + rewrite updateStats_due by done. simpl.
      by rewrite flushed_state_silent.
    + by rewrite updateStats_not_due.
Qed.

Lemma check_after_flush_is_quiet_witness :
  queried (updateStats (clock_reading 90000 11 "2024/1/1") 19723 true
             (updateStats (clock_reading 1000 10 "2024/1/1") 19723 true
                (initial (clock_reading 0 10 "2024/1/1") 19723)).1).2 = None.
Proof.
  apply (proj2 check_after_flush_is_quiet). apply state_ok_initial.
Defined.

(** ** Counting under a field of a recorded accumulator *)



(** ** The shape of a recent average *)

Lemma js_keys_map_values {A B : Type} (f : A → B) (o : jsobj A) :
  js_keys (map (λ kv : string * A, (kv.1, f kv.2)) o) = js_keys o.
Proof.
  unfold js_keys. rewrite <- list_fmap_compose. by apply list_fmap_ext.
Qed.

Lemma js_keys_set_elem {V : Type} k (v : V) (o : jsobj V) k' :
  k' ∈ js_keys (js_set k v o) ↔ k' = k ∨ k' ∈ js_keys o.
Proof.
  destruct (decide (k' ∈ js_keys (js_set k v o))) as [Hin|Hin].
  - split; [|done]. intros _.
    destruct (decide (k' = k)) as [|Hne]; [by left|right].
    destruct (decide (k' ∈ js_keys o)) as [|Hn]; [done|].
    apply js_get_None in Hn. exfalso.
    assert (js_get k' (js_set k v o) = None) as Hg by (by rewrite js_get_set_ne).
    by apply js_get_None in Hg.
  - split; [done|]. intros H. exfalso. apply js_get_None in Hin.
    rewrite js_get_set in Hin. case_decide; [done|].
    destruct H as [|H]; [done|]. by apply js_get_None in Hin.
Qed.

Lemma average_add_wf (result : jsobj Z) (stat : jsobj jsval) :
  js_wf result → js_wf (average_add result stat).
Proof.
  unfold average_add. revert result.
  induction stat as [|[k v] stat IH]; intros result Hwf; [done|].
  simpl. apply IH. destruct v; [by apply js_wf_set|done].
Qed.

Lemma average_add_keys (result : jsobj Z) (stat : jsobj jsval) k :
  k ∈ js_keys (average_add result stat) →
  k ∈ js_keys result ∨ ∃ n, (k, JNumber n) ∈ stat.
Proof.
  unfold average_add. revert result.
  induction stat as [|[k1 v1] stat IH]; intros result Hin; [by left|].
  simpl in Hin. apply IH in Hin as [Hin|[n Hn]].
  - destruct v1 as [n|]; [|by left].
    apply js_keys_set_elem in Hin as [->|Hin]; [|by left].
    right. exists n. by left.
  - right. exists n. by right.
Qed.

Lemma average_fold_wf (stats : list (jsobj jsval)) (result : jsobj Z) :
  js_wf result → js_wf (fold_left average_add stats result).
Proof.
  revert result. induction stats as [|stat stats IH]; intros result Hwf; [done|].
  simpl. by apply IH, average_add_wf.
Qed.

Lemma average_fold_keys (stats : list (jsobj jsval)) (result : jsobj Z) k :
  k ∈ js_keys (fold_left average_add stats result) →
  k ∈ js_keys result ∨ ∃ stat n, stat ∈ stats ∧ (k, JNumber n) ∈ stat.
Proof.
  revert result. induction stats as [|stat stats IH]; intros result Hin; [by left|].
  simpl in Hin. apply IH in Hin as [Hin|(stat' & n & Hs & Hn)].
  - apply average_add_keys in Hin as [Hin|[n Hn]]; [by left|].
    right. exists stat, n. split; [by left|done].
  - right. exists stat', n. split; [by right|done].
Qed.

Lemma average_wf (stats : list (jsobj jsval)) : js_wf (average stats).
Proof.
  unfold average, js_wf.
  rewrite !(js_keys_map_values
              (λ v, toFixed1 (inject_Z v / inject_Z (Z.of_nat RECENT_LENGTH)))).
  apply average_fold_wf, js_wf_nil.
Qed.

(** X7. Whatever records it is given, also records that list a key
    twice, [average] returns an object with no key twice, and each of its
    keys is one that holds a number in one of the first five records. *)
Theorem average_is_an_object (stats : list (jsobj jsval)) :
  js_wf (average stats) ∧
  ∀ k, k ∈ js_keys (average stats) →
       ∃ stat n, stat ∈ take 5 stats ∧ (k, JNumber n) ∈ stat.
Proof.
  unfold average, js_wf.
  rewrite !(js_keys_map_values
              (λ v, toFixed1 (inject_Z v / inject_Z (Z.of_nat RECENT_LENGTH)))).
  split.
  - apply average_fold_wf, js_wf_nil.
  - intros k Hin. apply average_fold_keys in Hin as [Hin|Hin]; [|done].
    by apply elem_of_nil in Hin.
Qed.

Lemma existsb_Permutation {A : Type} (p : A → bool) (l1 l2 : list A) :
  l1 ≡ₚ l2 → existsb p l1 = existsb p l2.
Proof.
  induction 1 as [|x l1 l2 _ IH|x y l|l1 l2 l3 _ IH1 _ IH2]; simpl.
  - done.
  - by rewrite IH.
  - by destruct (p x), (p y).
  - by rewrite IH1.
Qed.

Lemma sum_at_Permutation k (l1 l2 : list (jsobj jsval)) :
  l1 ≡ₚ l2 → sum_at k l1 = sum_at k l2.
Proof.
  unfold sum_at.
  induction 1 as [|x l1 l2 _ IH|x y l|l1 l2 l3 _ IH1 _ IH2]; simpl.
  - done.
  - by rewrite IH.
  - lia.
  - by rewrite IH1.
Qed.

Lemma average_get (stats : list (jsobj jsval)) k :
  Forall js_wf stats → (length stats ≤ 5)%nat →
  js_get k (average stats) =
  if existsb (has_num k) stats
  then Some (toFixed1 (inject_Z (sum_at k stats) / inject_Z 5))
  else None.
Proof.
  intros Hwf Hlen. unfold average.
  rewrite (js_get_map_values
             (λ v, toFixed1 (inject_Z v / inject_Z (Z.of_nat RECENT_LENGTH)))).
  change RECENT_LENGTH with 5%nat. rewrite firstn_all2 by done.
  rewrite js_get_average_fold by done.
  destruct (existsb _ _); simpl; [|done]. do 4 f_equal.
Qed.

(** X8. Within the window of five, the order of the records does not
    matter to the value [average] gives a key. *)
Theorem average_ignores_order (l1 l2 : list (jsobj jsval)) (k : string) :
  Forall js_wf l1 → (length l1 ≤ 5)%nat → l1 ≡ₚ l2 →
  js_get k (average l1) = js_get k (average l2).
Proof.
  intros Hwf Hlen Hp.
  rewrite !average_get; try done.
  - by rewrite (existsb_Permutation _ _ _ Hp), (sum_at_Permutation _ _ _ Hp).
  - by rewrite <- Hp.
  - by rewrite <- Hp.
Qed.

Lemma average_ignores_order_witness :
  js_get "a" (average [[("a", JNumber 5)]; [("b", JNumber 2)]]) =
  js_get "a" (average [[("b", JNumber 2)]; [("a", JNumber 5)]]).
Proof.
  apply average_ignores_order.
  - repeat constructor; apply (bool_decide_unpack _); by vm_compute.
  - simpl. lia.
  - apply Permutation_swap.
Defined.




(** ** The stored counts of a numerical accumulator *)

Lemma counts_only_new table fields : counts_only (Stat.Numerical.new table fields).
Proof.
  split; [apply numerical_ok_new|]. intros k Hin.
  destruct (decide (k ∈ fields)) as [|Hn]; [done|]. exfalso.
  assert (js_get k (Stat.data (Stat.Numerical.new table fields)) = None) as Hg.
  { unfold Stat.Numerical.new, Stat.new. rewrite js_get_clear. simpl.
    by rewrite decide_False. }
  by apply js_get_None in Hg.
Qed.

Lemma counts_only_incr s f :
  counts_only s → f ∈ Stat.fields s → counts_only (Stat.Numerical.incr f s).
Proof.
  intros [Hok Hk] Hf. split; [by apply numerical_ok_incr|].
  intros k. simpl. rewrite js_keys_set_elem. intros [->|Hin]; [done|by apply Hk].
Qed.

Lemma counts_only_clear (s : Stat.t number) : counts_only s → counts_only (Stat.clear s).
Proof.
  intros [Hok Hk]. split; [by apply numerical_ok_clear|].
  intros k Hin. rewrite fields_clear.
  destruct (decide (k ∈ Stat.fields s)) as [|Hn]; [done|].
  apply Hk. destruct (decide (k ∈ js_keys (Stat.data s))) as [|Hn']; [done|].
  exfalso. apply js_get_None in Hn'.
  assert (js_get k (Stat.data (Stat.clear s)) = None) as Hg.
  { rewrite js_get_clear. by rewrite decide_False. }
  by apply js_get_None in Hg.
Qed.

Lemma counts_only_update s date sqls :
  counts_only s → counts_only (Stat.update date sqls s).1.
Proof.
  intros Hc.
  destruct (update_cases date sqls s) as [[_ ->]|[(_ & _ & ->)|(_ & _ & ->)]]; simpl.
  - done.
  - by apply counts_only_clear.
  - by apply (counts_only_clear (Stat.with_key s (Some date))).
Qed.

Lemma counts_only_values s k v :
  counts_only s → (k, v) ∈ Stat.data s → ∃ n, v = Num n.
Proof.
  intros [(Hc & Hwf & Hf & Ho) Hk] Hin.
  assert (k ∈ Stat.fields s) as Hkf.
  { apply Hk. unfold js_keys. apply list_elem_of_fmap. by exists (k, v). }
  apply (js_wf_elem _ _ _ Hwf) in Hin.
  destruct (Hf k Hkf) as [n Hn]. exists n. congruence.
Qed.

Lemma exec_assigns_None us :
  foldl (λ r a, r ← r; Db.exec_assign r a) None us = None.
Proof. by induction us. Qed.

Lemma exec_assigns_counts (d : jsobj number) (row : gmap string Db.cell) :
  js_wf d →
  (∀ k v, (k, v) ∈ d → ∃ n, v = Num n) →
  (∀ k, k ∈ js_keys d → ∃ n, row !! k = Some (Db.CNumber n)) →
  ∃ row',
    Db.exec_assigns
      (omap (λ nv : string * number,
               StatConfig.update Stat.Numerical.config nv.1 nv.2) d) row = Some row' ∧
    ∀ k, row' !! k =
         match js_get k d, row !! k with
         | Some (Num v), Some (Db.CNumber n) => Some (Db.CNumber (n + v))
         | _, x => x
         end.
Proof.
  unfold js_wf, js_keys, Db.exec_assigns. revert row.
  induction d as [|[k1 v1] d IH]; intros row Hwf Hnum Hrow.
  - exists row. split; [done|]. intros k. simpl. by destruct (row !! k) as [[]|].
  - rewrite fmap_cons, NoDup_cons in Hwf. destruct Hwf as [Hk1 Hnd].
    destruct (Hnum k1 v1) as [n1 ->]; [by left|].
    destruct (Hrow k1) as [m1 Hm1]; [rewrite fmap_cons; by left|].
    assert (js_get k1 d = None) as Hnone by (by apply js_get_None).
    simpl. destruct (n1 =? 0)%N eqn:Hz; simpl.
    + apply N.eqb_eq in Hz. subst n1.
      destruct (IH row Hnd) as (row' & Hex & Hl).
      { intros k v Hin. apply (Hnum k v). by right. }
      { intros k Hin. apply Hrow. rewrite fmap_cons. by right. }
      exists row'. split; [exact Hex|]. intros k. rewrite Hl.
      case_decide as Heq; [|done]. subst k. rewrite Hnone, Hm1.
      by rewrite N.add_0_r.
    + rewrite Hm1. simpl.
      destruct (IH (<[k1 := Db.CNumber (m1 + n1)]> row) Hnd) as (row' & Hex & Hl).
      { intros k v Hin. apply (Hnum k v). by right. }
      { intros k Hin. destruct (decide (k = k1)) as [->|Hne].
        - rewrite lookup_insert_eq. by eexists.
        - rewrite lookup_insert_ne by done. apply Hrow. rewrite fmap_cons. by right. }
      exists row'. split; [exact Hex|]. intros k. rewrite Hl.
      case_decide as Heq.
      * subst k. by rewrite Hnone, lookup_insert_eq, Hm1.
      * by rewrite lookup_insert_ne by done.
Qed.

Lemma new_row_counts (d : jsobj number) :
  (∀ k v, (k, v) ∈ d → ∃ n, v = Num n) →
  ∃ row',
    Db.new_row (js_keys d) (map VNumber (js_values d)) = Some row' ∧
    ∀ k, row' !! k =
         match js_get k d with
         | Some (Num v) => Some (Db.CNumber v)
         | _ => None
         end.
Proof.
  unfold js_keys, js_values. induction d as [|[k1 v1] d IH]; intros Hnum.
  - exists ∅. split; [done|]. intros k. by rewrite lookup_empty.
  - destruct (Hnum k1 v1) as [n1 ->]; [by left|].
    destruct IH as (row' & Hex & Hl).
    { intros k v Hin. apply (Hnum k v). by right. }
    exists (<[k1 := Db.CNumber n1]> row'). split.
    + rewrite !fmap_cons. simpl.
      change (VNumber <$> d.*2) with (map VNumber d.*2). by rewrite Hex.
    + intros k. simpl. case_decide as Heq.
      * subst k. by rewrite lookup_insert_eq.
      * rewrite lookup_insert_ne by done. apply Hl.
Qed.

Lemma stored_row_put t key (row' : gmap string Db.cell)
    (db : gmap string (gmap string (gmap string Db.cell))) t' key' :
  stored_row t' key' (<[t := <[key := row']> (default ∅ (db !! t))]> db) =
  if decide ((t', key') = (t, key)) then Some row' else stored_row t' key' db.
Proof.
  unfold stored_row. destruct (decide (t' = t)) as [->|Hnt].
  - rewrite lookup_insert_eq. simpl. destruct (decide (key' = key)) as [->|Hnk].
    + rewrite lookup_insert_eq. by rewrite decide_True.
    + rewrite lookup_insert_ne by done. rewrite decide_False by congruence.
      by destruct (db !! t).
  - rewrite lookup_insert_ne by done. by rewrite decide_False by congruence.
Qed.

Lemma stored_row_default t key (db : gmap string (gmap string (gmap string Db.cell))) :
  default ∅ (db !! t) !! key = stored_row t key db.
Proof. unfold stored_row. by destruct (db !! t). Qed.

Lemma query_snoc sqls x (db : gmap string (gmap string (gmap string Db.cell))) :
  Db.query (sqls ++ [x]) db = Db.query sqls db ≫= Db.exec_stmt x.
Proof. unfold Db.query. by rewrite foldl_app. Qed.

(** The row a flush with something pending leaves under its bucket. *)
Lemma flush_row (s : Stat.t number) d
    (dbc : gmap string (gmap string (gmap string Db.cell))) :
  counts_only s →
  numeric_row (Stat.fields s) (Stat.table s) d dbc →
  ∃ row',
    match stored_row (Stat.table s) d dbc with
    | None => Db.new_row (js_keys (Stat.data s))
                (map (StatConfig.create (Stat.config s)) (js_values (Stat.data s)))
    | Some row => Db.exec_assigns (Stat.pending s) row
    end = Some row' ∧
    ∀ f, f ∈ Stat.fields s →
         row' !! f =
         Some (Db.CNumber (stored_count (Stat.table s) d f dbc + held f s)).
Proof.
  intros Hc Hnum. pose proof Hc as [(Hcfg & Hwf & Hf & Ho) Hk].
  unfold stored_count, held, Stat.pending. rewrite Hcfg.
  destruct (stored_row (Stat.table s) d dbc) as [row|] eqn:Hrow; simpl.
  - destruct (exec_assigns_counts (Stat.data s) row Hwf) as (row' & Hex & Hl).
    { intros k v. by apply counts_only_values. }
    { intros k Hin. apply (Hnum row k Hrow). by apply Hk. }
    exists row'. split; [exact Hex|]. intros f Hin. rewrite Hl.
    destruct (Hf f Hin) as [v ->]. destruct (Hnum row f Hrow Hin) as [n ->].
    done.
  - destruct (new_row_counts (Stat.data s)) as (row' & Hex & Hl).
    { intros k v. by apply counts_only_values. }
    exists row'. split; [exact Hex|]. intros f Hin. rewrite Hl.
    destruct (Hf f Hin) as [v ->]. done.
Qed.

Lemma flush_stored (s : Stat.t number) d sqls
    (db dbc : gmap string (gmap string (gmap string Db.cell))) :
  counts_only s →
  numeric_row (Stat.fields s) (Stat.table s) d dbc →
  (Stat.key s = Some d → is_Some (stored_row (Stat.table s) d dbc)) →
  (sqls ≠ [] → is_Some (stored_row (Stat.table s) d dbc)) →
  Db.query sqls db = Some dbc →
  ∃ dbc',
    Db.query (Stat.update d sqls s).2 db = Some dbc' ∧
    numeric_row (Stat.fields s) (Stat.table s) d dbc' ∧
    (Stat.key (Stat.update d sqls s).1 = Some d →
     is_Some (stored_row (Stat.table s) d dbc')) ∧
    ((Stat.update d sqls s).2 ≠ [] → is_Some (stored_row (Stat.table s) d dbc')) ∧
    (∀ f, f ∈ Stat.fields s →
       (stored_count (Stat.table s) d f dbc' + held f (Stat.update d sqls s).1 =
        stored_count (Stat.table s) d f dbc + held f s)%N) ∧
    (∀ t' key', (t', key') ≠ (Stat.table s, d) →
       stored_row t' key' dbc' = stored_row t' key' dbc).
Proof.
  intros Hc Hnum Hkey Hsq Hq.
  destruct (flush_row s d dbc Hc Hnum) as (row' & Hrow' & Hl).
  assert (∀ dbc',
            dbc' = <[Stat.table s := <[d := row']> (default ∅ (dbc !! Stat.table s))]> dbc →
            numeric_row (Stat.fields s) (Stat.table s) d dbc' ∧
            is_Some (stored_row (Stat.table s) d dbc') ∧
            (∀ f, f ∈ Stat.fields s →
               stored_count (Stat.table s) d f dbc' =
               (stored_count (Stat.table s) d f dbc + held f s)%N) ∧
            (∀ t' key', (t', key') ≠ (Stat.table s, d) →
               stored_row t' key' dbc' = stored_row t' key' dbc)) as Hput.
  { intros dbc' ->. split_and!.
    - intros row f. rewrite stored_row_put, decide_True by done.
      intros [= <-] Hin. rewrite (Hl f Hin). by eexists.
    - rewrite stored_row_put, decide_True by done. by eexists.
    - intros f Hin. unfold stored_count at 1.
      rewrite stored_row_put, decide_True by done. simpl. by rewrite (Hl f Hin).
    - intros t' key' Hne. by rewrite stored_row_put, decide_False. }
  destruct (update_cases d sqls s) as [[_ ->]|[(_ & Hk & ->)|(_ & Hk & ->)]]; simpl.
  - exists dbc. by split_and!.
  - destruct (Hkey Hk) as [row Hrow]. rewrite Hrow in Hrow'.
    eexists. split.
    { rewrite query_snoc, Hq. simpl. rewrite stored_row_default, Hrow.
      rewrite Hrow'. simpl. reflexivity. }
    destruct (Hput _ eq_refl) as (H1 & H2 & H3 & H4).
    split_and!; try done.
    intros f Hin. rewrite (H3 f Hin).
    destruct Hc as [Hok _]. rewrite held_clear by done. lia.
  - eexists. split.
    { rewrite query_snoc, Hq. simpl. rewrite stored_row_default.
      destruct (stored_row (Stat.table s) d dbc); rewrite Hrow'; simpl; reflexivity. }
    destruct (Hput _ eq_refl) as (H1 & H2 & H3 & H4).
    split_and!; try done.
    intros f Hin. rewrite (H3 f Hin).
    destruct Hc as [Hok _].
    rewrite (held_clear (Stat.with_key s (Some d))) by done. lia.
Qed.

Lemma store_run d (db : gmap string (gmap string (gmap string Db.cell)))
    (ops : list (op string)) :
  ∀ (s : Stat.t number) sqls dbc s' out,
    (∀ f, Incr f ∈ ops → f ∈ Stat.fields s) →
    all_flushes_at d ops →
    counts_only s →
    numeric_row (Stat.fields s) (Stat.table s) d dbc →
    (Stat.key s = Some d → is_Some (stored_row (Stat.table s) d dbc)) →
    (sqls ≠ [] → is_Some (stored_row (Stat.table s) d dbc)) →
    Db.query sqls db = Some dbc →
    run numerical_incr ops s sqls = Some (s', out) →
    ∃ db',
      Db.query out db = Some db' ∧
      (∀ f, f ∈ Stat.fields s →
         (stored_count (Stat.table s) d f db' + held f s' =
          stored_count (Stat.table s) d f dbc + held f s + increments f ops)%N) ∧
      (out ≠ [] → is_Some (stored_row (Stat.table s) d db')) ∧
      (∀ t' key', (t', key') ≠ (Stat.table s, d) →
         stored_row t' key' db' = stored_row t' key' dbc).
Proof.
  induction ops as [|[i|d'] ops IH];
    intros s sqls dbc s' out Hdecl Hall Hc Hnum Hkey Hsq Hq; simpl.
  - intros [= <- <-]. exists dbc. split_and!; try done. intros f _. lia.
  - intros Hr.
    assert (i ∈ Stat.fields s) as Hi by (apply Hdecl; by left).
    destruct (IH (Stat.Numerical.incr i s) sqls dbc s' out) as (db' & H1 & H2 & H3 & H4);
      try done.
    + intros f Hin. apply Hdecl. by right.
    + intros d2 Hin. apply Hall. by right.
    + by apply counts_only_incr.
    + exists db'. split_and!; try done. intros f Hin.
      specialize (H2 f Hin). simpl in H2.
      destruct Hc as [Hok _]. rewrite held_incr in H2 by done.
      destruct (decide (i = f)); lia.
  - assert (d' = d) as -> by (apply Hall; by left).
    intros Hr.
    destruct (flush_stored s d sqls db dbc Hc Hnum Hkey Hsq Hq)
      as (dbc1 & G1 & G2 & G3 & G4 & G5 & G6).
    destruct (IH (Stat.update d sqls s).1 (Stat.update d sqls s).2 dbc1 s' out)
      as (db' & H1 & H2 & H3 & H4); try done.
    + intros f Hin. rewrite fields_update. apply Hdecl. by right.
    + intros d2 Hin. apply Hall. by right.
    + by apply counts_only_update.
    + by rewrite fields_update, table_update.
    + by rewrite table_update.
    + by rewrite table_update.
    + rewrite fields_update, table_update in *.
      exists db'. split_and!; try done.
      * intros f Hin. specialize (H2 f Hin). specialize (G5 f Hin). lia.
      * intros t' key' Hne. rewrite H4 by done. by apply G6.
Qed.

(** X10. The store ends up holding what was counted. Take a numerical
    accumulator counting declared fields and flushed, any number of
    times, under one bucket, and a store whose row for that bucket is
    either missing or holds a number in every declared column. Running
    the statements in order succeeds; afterwards, for every declared
    field, the stored count plus what the accumulator still holds is the
    count stored before plus the number of increments. The row exists as
    soon as one statement was sent, and no other row of any table is
    touched. *)
Theorem store_holds_the_counts table fields (ops : list (op string)) d
    (db : gmap string (gmap string (gmap string Db.cell))) s out :
  (∀ f, Incr f ∈ ops → f ∈ fields) →
  all_flushes_at d ops →
  numeric_row fields table d db →
  run numerical_incr ops (Stat.Numerical.new table fields) [] = Some (s, out) →
  ∃ db',
    Db.query out db = Some db' ∧
    (∀ f, f ∈ fields →
       (stored_count table d f db' + held f s =
        stored_count table d f db + increments f ops)%N) ∧
    (out ≠ [] → is_Some (stored_row table d db')) ∧
    (∀ t' key', (t', key') ≠ (table, d) →
       stored_row t' key' db' = stored_row t' key' db).
Proof.
  intros Hdecl Hall Hnum Hr.
  destruct (store_run d db ops (Stat.Numerical.new table fields) [] db s out)
    as (db' & H1 & H2 & H3 & H4); try done.
  - apply counts_only_new.
  - exists db'. split_and!; try done.
    intros f Hin. specialize (H2 f Hin). simpl in H2.
    rewrite held_new in H2 by done. lia.
Qed.

Lemma store_holds_the_counts_witness :
  ∃ db' : gmap string (gmap string (gmap string Db.cell)),
    Db.query
      [InsertOnDuplicate "stats_hourly" hourlyFields "2024/1/1-10:00"
         [VNumber (Num 1); VNumber (Num 0); VNumber (Num 0); VNumber (Num 0);
          VNumber (Num 0)]
         [AddAssign "total" (Num 1)];
       Update "stats_hourly" [AddAssign "total" (Num 1); AddAssign "group" (Num 1)]
         "2024/1/1-10:00"] ∅ = Some db' ∧
    (∀ f, f ∈ hourlyFields →
       (stored_count "stats_hourly" "2024/1/1-10:00" f db' +
        held f (Stat.with_key (Stat.Numerical.new "stats_hourly" hourlyFields)
                  (Some "2024/1/1-10:00")) =
        stored_count "stats_hourly" "2024/1/1-10:00" f ∅ +
        increments f [Incr "total"; Flush "2024/1/1-10:00"; Incr "total";
                      Incr "group"; Flush "2024/1/1-10:00"])%N) ∧
    ([InsertOnDuplicate "stats_hourly" hourlyFields "2024/1/1-10:00"
        [VNumber (Num 1); VNumber (Num 0); VNumber (Num 0); VNumber (Num 0);
         VNumber (Num 0)]
        [AddAssign "total" (Num 1)];
      Update "stats_hourly" [AddAssign "total" (Num 1); AddAssign "group" (Num 1)]
        "2024/1/1-10:00"] ≠ [] →
     is_Some (stored_row "stats_hourly" "2024/1/1-10:00" db')) ∧
    (∀ t' key', (t', key') ≠ ("stats_hourly", "2024/1/1-10:00") →
       stored_row t' key' db' = stored_row t' key' ∅).
Proof.
  apply (store_holds_the_counts "stats_hourly" hourlyFields
           [Incr "total"; Flush "2024/1/1-10:00"; Incr "total"; Incr "group";
            Flush "2024/1/1-10:00"]).
  - intros f Hin.
    repeat (apply elem_of_cons in Hin as [Heq|Hin];
            [simplify_eq; apply (bool_decide_unpack _); by vm_compute|]).
    by apply elem_of_nil in Hin.
  - intros d' Hin.
    repeat (apply elem_of_cons in Hin as [Heq|Hin]; [by simplify_eq|]).
    by apply elem_of_nil in Hin.
  - intros row f Hrow. unfold stored_row in Hrow. by rewrite lookup_empty in Hrow.
  - vm_compute. reflexivity.
Defined.

(** ** The questions of a snapshot *)

Lemma js_set_elem {V : Type} k (v : V) (o : jsobj V) x :
  x ∈ js_set k v o → x = (k, v) ∨ x ∈ o.
Proof.
  unfold js_set. destruct (js_get k o) as [v0|].
  - unfold js_replace. intros ([k1 v1] & -> & Hin)%list_elem_of_fmap.
    simpl. case_decide; [by left|by right].
  - induction o as [|kv o IH]; simpl.
    + intros ->%list_elem_of_singleton. by left.
    + destruct (enumerated_before k kv.1).
      * intros [->|Hin]%elem_of_cons; [by left|by right].
      * intros [->|Hin]%elem_of_cons; [right; by left|].
        destruct (IH Hin) as [->|?]; [by left|right; by right].
Qed.

Section QuestionFacts.
Variable dialogueMap : jsobj Q.
Variable found : list (string * string).

(** What every entry of [questionMap] satisfies while the loop runs. *)
Let question_ok (questionMap : jsobj QuestionData) : Prop :=
  js_wf questionMap ∧
  ∀ k q, (k, q) ∈ questionMap →
         q_name q = k ∧ includes "[CQ:" k = false ∧ String.prefix "hook:" k = false ∧
         ∃ id, (id, k) ∈ found.

Lemma question_add_ok questionMap dialogue :
  question_ok questionMap → dialogue ∈ found →
  question_ok (question_add dialogueMap questionMap dialogue).
Proof.
  intros [Hwf Hall] Hin. destruct dialogue as [id name]. unfold question_add.
  destruct (includes "[CQ:" name) eqn:Hcq; simpl; [done|].
  destruct (String.prefix "hook:" name) eqn:Hhook; simpl; [done|].
  destruct (js_get name questionMap) as [q0|] eqn:Hg.
  - split; [by apply js_wf_set|]. intros k q [Heq|Hq]%js_set_elem; [|by apply Hall].
    injection Heq as -> ->. simpl.
    apply js_get_Some_elem in Hg. destruct (Hall _ _ Hg) as (Hn & _).
    split_and!; try done. by exists id.
  - split; [by apply js_wf_set|]. intros k q [Heq|Hq]%js_set_elem; [|by apply Hall].
    injection Heq as -> ->. simpl. split_and!; try done. by exists id.
Qed.

Lemma question_fold_ok dialogues questionMap :
  question_ok questionMap → (∀ d, d ∈ dialogues → d ∈ found) →
  question_ok (fold_left (question_add dialogueMap) dialogues questionMap).
Proof.
  revert questionMap. induction dialogues as [|d ds IH]; intros qm Hok Hsub; [done|].
  simpl. apply IH.
  - apply question_add_ok; [done|]. apply Hsub. by left.
  - intros d' Hin. apply Hsub. by right.
Qed.

Lemma question_values_ok questionMap :
  question_ok questionMap →
  NoDup (map q_name (js_values questionMap)) ∧
  ∀ q, q ∈ js_values questionMap →
       includes "[CQ:" (q_name q) = false ∧
       String.prefix "hook:" (q_name q) = false ∧
       ∃ id, (id, q_name q) ∈ found.
Proof.
  intros [Hwf Hall]. split.
  - assert (map q_name (js_values questionMap) = js_keys questionMap) as ->; [|done].
    clear Hwf. unfold js_values, js_keys.
    induction questionMap as [|[k q] qm IH]; [done|].
    rewrite !fmap_cons. simpl. f_equal.
    + apply (Hall k q). by left.
    + apply IH. intros k' q' Hin. apply Hall. by right.
  - intros q ([k q'] & -> & Hin)%list_elem_of_fmap. simpl.
    destruct (Hall _ _ Hin) as (<- & ? & ? & ?). done.
Qed.
End QuestionFacts.

(** X11. In a snapshot no question is listed twice, no question contains
    [[CQ:] or starts with [hook:], and every question is the original of
    a dialogue that the lookup returned. *)
Theorem questions_are_filtered env (bots : list Bot) (date : string)
    (qs : list QuestionData) :
  questions <$> (cd_extension <$> getStatusData env bots date) = Some qs →
  NoDup (map q_name qs) ∧
  ∀ q, q ∈ qs →
       includes "[CQ:" (q_name q) = false ∧
       String.prefix "hook:" (q_name q) = false ∧
       ∃ ids found id, getDialoguesById env ids = Some found ∧ (id, q_name q) ∈ found.
Proof.
  unfold getStatusData.
  destruct (query_result env date) as [pack|]; simpl; [|done].
  destruct (unlisted_groups env pack _) as [groups|]; simpl; [|done].
  destruct (db_update env _); simpl; [|done].
  destruct (getDialoguesById env _) as [found|] eqn:Hfound; simpl; [|done].
  intros [= <-].
  destruct (question_values_ok found
              (fold_left (question_add (average (map d_dialogue (historyDaily pack))))
                 found [])) as [Hnd Hall].
  { apply question_fold_ok; [|done]. split; [apply js_wf_nil|].
    by intros k q ?%elem_of_nil. }
  split; [done|]. intros q Hq. destruct (Hall q Hq) as (? & ? & id & Hid).
  split_and!; try done. by eexists _, found, id.
Qed.

Lemma questions_are_filtered_witness :
  NoDup (map q_name [{| q_name := "hello"; q_value := Some (300 # 100) |}]) ∧
  ∀ q, q ∈ [{| q_name := "hello"; q_value := Some (300 # 100) |}] →
       includes "[CQ:" (q_name q) = false ∧
       String.prefix "hook:" (q_name q) = false ∧
       ∃ ids found id,
         getDialoguesById dialogue_env ids = Some found ∧ (id, q_name q) ∈ found.
Proof.
  apply (questions_are_filtered dialogue_env [] "2024/1/2"). by vm_compute.
Defined.

(** ** The channels the bots list *)

Section ListingFacts.
Variable env : Env.
Variable pack : DataPack.

(** What the accumulators of [getGroupInfo] satisfy at every point. *)
Let listing_ok (acc : GroupAcc) : Prop :=
  NoDup (updateList acc).*1 ∧
  (∀ id name, (id, name) ∈ updateList acc →
     id ∈ groupSet acc ∧
     ∃ row, js_get id (groupMap pack) = Some row ∧ c_name row ≠ name) ∧
  (∀ g, g ∈ ext_groups acc →
     Qeq_bool (g_value g) 0 = false ∧
     ∃ id, id ∈ groupSet acc ∧ js_get id (messageMap pack) = Some (g_value g)).

Lemma listing_ok_turn bot acc g :
  listing_ok acc → listing_ok (getGroupInfo_turn env pack bot acc g).1.
Proof.
  intros (Hnd & Hup & Hext). destruct g as [groupId name].
  unfold getGroupInfo_turn.
  set (id := platform bot +:+ ":" +:+ groupId).
  destruct (js_get id (messageMap pack)) as [value|] eqn:Hv; [|done].
  destruct (Qeq_bool value 0) eqn:Hz; simpl; [done|].
  destruct (bool_decide (id ∈ groupSet acc)) eqn:Hs; simpl; [done|].
  apply bool_decide_eq_false in Hs.
  assert (∀ id' name', (id', name') ∈ updateList acc →
            id' ∈ {[id]} ∪ groupSet acc ∧
            ∃ row, js_get id' (groupMap pack) = Some row ∧ c_name row ≠ name') as Hup'.
  { intros id' name' Hin. destruct (Hup _ _ Hin) as [? ?].
    split; [apply elem_of_union; by right|done]. }
  assert (∀ g, g ∈ ext_groups acc →
            Qeq_bool (g_value g) 0 = false ∧
            ∃ id', id' ∈ {[id]} ∪ groupSet acc ∧
                   js_get id' (messageMap pack) = Some (g_value g)) as Hext'.
  { intros g Hin. destruct (Hext _ Hin) as [? (id' & ? & ?)].
    split; [done|]. exists id'. split; [apply elem_of_union; by right|done]. }
  destruct (js_get id (groupMap pack)) as [row|] eqn:Hrow; simpl; [|done].
  assert (listing_ok
            (if decide (name ≠ c_name row)
             then {| groupSet := {[id]} ∪ groupSet acc;
                     updateList := updateList acc ++ [(id, name)];
                     ext_groups := ext_groups acc |}
             else {| groupSet := {[id]} ∪ groupSet acc;
                     updateList := updateList acc;
                     ext_groups := ext_groups acc |})) as Hmid.
  { case_decide as Hname; [|done]. split_and!; simpl; [| |done].
    - rewrite fmap_app. apply NoDup_app. split_and!; [done| |apply NoDup_singleton].
      intros id' ([id2 name2] & -> & Hin)%list_elem_of_fmap. simpl.
      intros ->%list_elem_of_singleton. by destruct (Hup _ _ Hin).
    - intros id' name' [Hin|Hin]%elem_of_app; [by apply Hup'|].
      apply list_elem_of_singleton in Hin. injection Hin as -> ->.
      split; [apply elem_of_union; left; by apply elem_of_singleton|].
      exists row. split; [done|]. congruence. }
  destruct (bots_get env (c_assignee row)) as [assignee|]; simpl.
  - destruct Hmid as (M1 & M2 & M3). case_decide; simpl in *.
    + split_and!; simpl; [done|done|].
      intros g [Hin|Hin]%elem_of_app; [by apply M3|].
      apply list_elem_of_singleton in Hin. subst g. simpl. split; [done|].
      exists id. split; [apply elem_of_union; left; by apply elem_of_singleton|done].
    + split_and!; simpl; [done|done|].
      intros g [Hin|Hin]%elem_of_app; [by apply M3|].
      apply list_elem_of_singleton in Hin. subst g. simpl. split; [done|].
      exists id. split; [apply elem_of_union; left; by apply elem_of_singleton|done].
  - by case_decide.
Qed.

Lemma listing_ok_loop bot gs acc :
  listing_ok acc → listing_ok (getGroupInfo_loop env pack bot acc gs).1.
Proof.
  revert acc. induction gs as [|g gs IH]; intros acc Hok; [done|]. simpl.
  pose proof (listing_ok_turn bot acc g Hok) as Hturn.
  destruct (getGroupInfo_turn env pack bot acc g) as [acc1 threw].
  destruct threw; [done|]. by apply IH.
Qed.

Lemma listing_ok_collect bots acc :
  listing_ok acc → listing_ok (fold_left (getGroupInfo_caught env pack) bots acc).
Proof.
  revert acc. induction bots as [|bot bots IH]; intros acc Hok; [done|]. simpl.
  apply IH. unfold getGroupInfo_caught, getGroupInfo.
  destruct (getGroupList bot); [by apply listing_ok_loop|done].
Qed.

Lemma listing_ok_final bots :
  NoDup (updateList (collect_groups env pack bots)).*1 ∧
  (∀ id name, (id, name) ∈ updateList (collect_groups env pack bots) →
     id ∈ groupSet (collect_groups env pack bots) ∧
     ∃ row, js_get id (groupMap pack) = Some row ∧ c_name row ≠ name) ∧
  (∀ g, g ∈ ext_groups (collect_groups env pack bots) →
     Qeq_bool (g_value g) 0 = false ∧
     ∃ id, id ∈ groupSet (collect_groups env pack bots) ∧
           js_get id (messageMap pack) = Some (g_value g)).
Proof.
  apply (listing_ok_collect bots). split_and!.
  - apply NoDup_nil_2.
  - by intros id name ?%elem_of_nil.
  - by intros g ?%elem_of_nil.
Qed.
End ListingFacts.

(** X12. However many bots list a channel, and under whatever names, the
    list of renames sent to the store holds each channel at most once,
    and every rename in it gives a stored channel a name different from
    the stored one. Every channel reported from a bot's listing has a
    recent average that is not zero. *)
Theorem renames_listed_once env pack (bots : list Bot) :
  NoDup (updateList (collect_groups env pack bots)).*1 ∧
  (∀ id name, (id, name) ∈ updateList (collect_groups env pack bots) →
     id ∈ groupSet (collect_groups env pack bots) ∧
     ∃ row, js_get id (groupMap pack) = Some row ∧ c_name row ≠ name) ∧
  (∀ g, g ∈ ext_groups (collect_groups env pack bots) →
     Qeq_bool (g_value g) 0 = false ∧
     ∃ id, id ∈ groupSet (collect_groups env pack bots) ∧
           js_get id (messageMap pack) = Some (g_value g)).
Proof. apply listing_ok_final. Qed.

(** ** Termination: the forced flush *)






(** ** The stored counts of a recorded accumulator *)








(** ** Channels that no bot listed *)

Section UnlistedFacts.
Variable env : Env.
Variable pack : DataPack.
Variable acc : GroupAcc.





End UnlistedFacts.


(** ** Bucket keys *)

Lemma includes_dash_cons c s :
  includes "-" (String c s) = false → c ≠ "-"%char ∧ includes "-" s = false.
Proof.
  change (includes "-" (String c s))
    with (String.prefix "-" (String c s) || includes "-" s).
  intros [Hp Hi]%orb_false_iff. split; [|done].
  intros ->. by destruct s.
Qed.

Lemma append_dash_inj a b x y :
  includes "-" a = false → includes "-" b = false →
  a +:+ String "-" x = b +:+ String "-" y → a = b ∧ x = y.
Proof.
  revert b. induction a as [|c a IH]; intros [|c' b] Ha Hb; simpl.
  - by intros [= ->].
  - apply includes_dash_cons in Hb as [Hne _]. intros [= <- _]. done.
  - apply includes_dash_cons in Ha as [Hne _]. intros [= -> _]. done.
  - apply includes_dash_cons in Ha as [_ Ha].
    apply includes_dash_cons in Hb as [_ Hb].
    intros [= -> H]. destruct (IH b Ha Hb H) as [-> ->]. done.
Qed.

Lemma length_append a b : String.length (a +:+ b) = (String.length a + String.length b)%nat.
Proof. induction a as [|c a IH]; simpl; [done|]. by rewrite IH. Qed.

Lemma append_inj_r a b c : a +:+ c = b +:+ c → a = b.
Proof.
  revert b. induction a as [|x a IH]; intros [|y b]; simpl.
  - done.
  - intros H. apply (f_equal String.length) in H.
    rewrite !length_append in H. simpl in H. lia.
  - intros H. apply (f_equal String.length) in H.
    rewrite !length_append in H. simpl in H. lia.
  - intros [= -> H]. by rewrite (IH b H).
Qed.

(** X16. An hourly bucket key names one hour of one day: two clock
    readings whose calendar dates hold no dash get the same key only when
    they show the same calendar date and the same hour. *)
Theorem hour_key_names_one_hour (d1 d2 : Date) :
  includes "-" (toLocaleDateString d1) = false →
  includes "-" (toLocaleDateString d2) = false →
  hourString d1 = hourString d2 →
  toLocaleDateString d1 = toLocaleDateString d2 ∧ getHours d1 = getHours d2.
Proof.
  unfold hourString. intros H1 H2 Heq.
  apply append_dash_inj in Heq as [Hd Hh]; [|done..].
  split; [done|]. apply append_inj_r in Hh. by apply (inj pretty).
Qed.

Lemma hour_key_names_one_hour_witness :
  toLocaleDateString (clock_reading 1000 10 "2024/1/1") =
  toLocaleDateString (clock_reading 90000 10 "2024/1/1") ∧
  getHours (clock_reading 1000 10 "2024/1/1") =
  getHours (clock_reading 90000 10 "2024/1/1").
Proof.
  apply hour_key_names_one_hour; by vm_compute.
Defined.

(** ** Counting under an undeclared field of a numerical accumulator *)






(** ** The shape of a snapshot *)

Lemma history_fold_wf (rows : list LongtermRow) (h : jsobj jsval) :
  js_wf h →
  js_wf (fold_left (λ h stat, js_set (toLocaleDateString (l_time stat)) (l_message stat) h)
           rows h).
Proof.
  revert h. induction rows as [|row rows IH]; intros h Hwf; [done|].
  simpl. by apply IH, js_wf_set.
Qed.

Lemma history_fold_keys (rows : list LongtermRow) (h : jsobj jsval) k :
  k ∈ js_keys (fold_left (λ h stat, js_set (toLocaleDateString (l_time stat))
                                      (l_message stat) h) rows h) ↔
  k ∈ js_keys h ∨ ∃ row, row ∈ rows ∧ toLocaleDateString (l_time row) = k.
Proof.
  revert h. induction rows as [|row rows IH]; intros h; simpl.
  - split; [by left|]. intros [?|(? & ?%elem_of_nil & _)]; done.
  - rewrite IH, js_keys_set_elem. split.
    + intros [[->|?]|(row' & Hin & Hk)].
      * right. exists row. split; [by left|done].
      * by left.
      * right. exists row'. split; [by right|done].
    + intros [?|(row' & [->|Hin]%elem_of_cons & Hk)].
      * left. by right.
      * left. by left.
      * right. by exists row'.
Qed.

(** X18. The shape of a snapshot that was assembled: it carries the daily
    rows the query returned; its history has one entry per calendar date
    of the longterm rows and no date twice; its command averages list no
    command twice; and it has twenty-four hour slots, none of which
    lists a key twice. *)
Theorem snapshot_shape env (bots : list Bot) (date : string) (cd : CachedData) :
  getStatusData env bots date = Some cd →
  ∃ pack,
    query_result env date = Some pack ∧
    cd_historyDaily cd = historyDaily pack ∧
    js_wf (history (cd_extension cd)) ∧
    (∀ k, k ∈ js_keys (history (cd_extension cd)) ↔
          ∃ row, row ∈ historyLongterm pack ∧ toLocaleDateString (l_time row) = k) ∧
    js_wf (commands (cd_extension cd)) ∧
    length (hours (cd_extension cd)) = 24%nat ∧
    Forall js_wf (hours (cd_extension cd)).
Proof.
  unfold getStatusData.
  destruct (query_result env date) as [pack|]; simpl; [|done].
  destruct (unlisted_groups env pack _) as [groups|]; simpl; [|done].
  destruct (db_update env _); simpl; [|done].
  destruct (getDialoguesById env _) as [found|]; simpl; [|done].
  intros [= <-]. exists pack. simpl. split_and!; try done.
  - apply history_fold_wf, js_wf_nil.
  - intros k. rewrite history_fold_keys. split; [|by right].
    intros [?%elem_of_nil|?]; done.
  - apply average_wf.
  - repeat (apply Forall_cons_2; [apply average_wf|]). apply Forall_nil_2.
Qed.

Lemma snapshot_shape_witness :
  ∃ pack,
    query_result sample_env "2024/1/2" = Some pack ∧
    cd_historyDaily sample_snapshot = historyDaily pack ∧
    js_wf (history (cd_extension sample_snapshot)) ∧
    (∀ k, k ∈ js_keys (history (cd_extension sample_snapshot)) ↔
          ∃ row, row ∈ historyLongterm pack ∧ toLocaleDateString (l_time row) = k) ∧
    js_wf (commands (cd_extension sample_snapshot)) ∧
    length (hours (cd_extension sample_snapshot)) = 24%nat ∧
    Forall js_wf (hours (cd_extension sample_snapshot)).
Proof.
  apply (snapshot_shape sample_env [bad_bot; good_bot] "2024/1/2"). by vm_compute.
Defined.
